(** * T-Prep: the request handlers of [main.py], embedded and verified

    [main.py] is a FastAPI application with six POST handlers: [register],
    [login], [import_questions], [generate_answer], [ocr] and [start_review].
    Each handler is embedded as a computation in a small state-and-exception
    monad over a [World] that holds the three tables the handlers touch and
    the queue of the deferred-task substrate.

    Conventions.
    - A Python [str] is a list of Unicode code points ([N]); [bytes] is a
      [list byte]; a Python [int] is a [Z].
    - A handler either returns its JSON payload or raises; effects performed
      before a [raise] persist, as in Python.
    - The store and the task queue are reliable (they are the state of the
      model); the document parser, the chat-completion API and the OCR
      stack are functions that may raise, taken as parameters. *)

From Stdlib Require Import List ZArith NArith Bool String Ascii Lia.
From Stdlib Require Import Strings.Byte.
From Stdlib Require Import DecimalString.
Import ListNotations.

Local Open Scope Z_scope.

(** ** Python strings *)

Definition str : Type := list N.

(** An ASCII literal of the source as a [str]. *)
Definition lit (s : string) : str := map Byte.to_N (list_byte_of_string s).

Definition str_eqb (a b : str) : bool :=
  if list_eq_dec N.eq_dec a b then true else false.

(** Truthiness of a [str]: non-empty. *)
Definition truthy (s : str) : bool :=
  match s with [] => false | _ :: _ => true end.

(** [s.endswith(suffix)] *)
Definition endswith (s suffix : str) : bool :=
  (List.length suffix <=? List.length s)%nat
  && str_eqb (skipn (List.length s - List.length suffix) s) suffix.

(** [str.isspace] on one code point: the code points CPython's
    [_PyUnicode_IsWhitespace] accepts. *)
Definition isspace (c : N) : bool :=
  (((0x09 <=? c) && (c <=? 0x0D)) || ((0x1C <=? c) && (c <=? 0x20))
   || (c =? 0x85) || (c =? 0xA0) || (c =? 0x1680)
   || ((0x2000 <=? c) && (c <=? 0x200A))
   || (c =? 0x2028) || (c =? 0x2029) || (c =? 0x202F) || (c =? 0x205F)
   || (c =? 0x3000))%N.

Fixpoint lstrip (s : str) : str :=
  match s with
  | [] => []
  | c :: r => if isspace c then lstrip r else s
  end.

Definition rstrip (s : str) : str := rev (lstrip (rev s)).

(** [s.strip()] *)
Definition strip (s : str) : str := rstrip (lstrip s).

(** [s.split(sep)] for a separator of one code point, as in
    [content.split("\n")]: the pieces between separators, empty ones kept. *)
Fixpoint split (sep : N) (s : str) : list str :=
  match s with
  | [] => [[]]
  | c :: r =>
      if (c =? sep)%N then [] :: split sep r
      else match split sep r with
           | [] => [[c]]
           | piece :: pieces => (c :: piece) :: pieces
           end
  end.

Definition LF : N := 10%N.

(** [str(n)] for a length. *)
Definition str_of_nat (n : nat) : str :=
  lit (NilEmpty.string_of_uint (Nat.to_uint n)).

(** ** [bytes.decode("utf-8")]

    The strict decoder: well-formed sequences only (no overlong forms, no
    surrogates, nothing above U+10FFFF); [None] stands for
    [UnicodeDecodeError]. *)

Definition is_cont (b : byte) : bool :=
  ((0x80 <=? Byte.to_N b) && (Byte.to_N b <=? 0xBF))%N.

Definition in_range (lo hi : N) (b : byte) : bool :=
  ((lo <=? Byte.to_N b) && (Byte.to_N b <=? hi))%N.

Definition low6 (b : byte) : N := (Byte.to_N b - 0x80)%N.

Fixpoint decode_utf8 (bs : list byte) : option str :=
  match bs with
  | [] => Some []
  | b0 :: r0 =>
      let n0 := Byte.to_N b0 in
      if (n0 <? 0x80)%N then option_map (cons n0) (decode_utf8 r0)
      else if in_range 0xC2 0xDF b0 then
        match r0 with
        | b1 :: r1 =>
            if is_cont b1
            then option_map (cons ((n0 - 0xC0) * 64 + low6 b1)%N) (decode_utf8 r1)
            else None
        | _ => None
        end
      else if in_range 0xE0 0xEF b0 then
        match r0 with
        | b1 :: b2 :: r2 =>
            if (if (n0 =? 0xE0)%N then in_range 0xA0 0xBF b1
                else if (n0 =? 0xED)%N then in_range 0x80 0x9F b1
                else is_cont b1) && is_cont b2
            then option_map
                   (cons ((n0 - 0xE0) * 4096 + low6 b1 * 64 + low6 b2)%N)
                   (decode_utf8 r2)
            else None
        | _ => None
        end
      else if in_range 0xF0 0xF4 b0 then
        match r0 with
        | b1 :: b2 :: b3 :: r3 =>
            if (if (n0 =? 0xF0)%N then in_range 0x90 0xBF b1
                else if (n0 =? 0xF4)%N then in_range 0x80 0x8F b1
                else is_cont b1) && is_cont b2 && is_cont b3
            then option_map
                   (cons ((n0 - 0xF0) * 262144 + low6 b1 * 4096
                          + low6 b2 * 64 + low6 b3)%N)
                   (decode_utf8 r3)
            else None
        | _ => None
        end
      else None
  end.

(** ** Exceptions and outcomes *)

Inductive Exn : Type :=
| HTTPException (status_code : Z) (detail : str)
| UnicodeDecodeError
| IndexError
| UpstreamError (what : str).

Inductive Outcome (A : Type) : Type :=
| Return (a : A)
| Raise (e : Exn).
Arguments Return {A} a.
Arguments Raise {A} e.

(** The failures of the handlers, by the names of the error taxonomy. *)
Definition AlreadyExists : Exn := HTTPException 400 (lit "Email already registered").
Definition InvalidCredentials : Exn := HTTPException 400 (lit "Incorrect email or password").
Definition UnsupportedFormat : Exn := HTTPException 400 (lit "Unsupported file format").
Definition NotFound : Exn := HTTPException 404 (lit "Question not found").

(** ** Records of [models] and [schemas], with the fields [main.py] uses *)

Module User.
Record t : Type := mk { id : Z; email : str; hashed_password : str }.
End User.

Module Question.
Record t : Type := mk { id : Z; question_text : str; user_id : Z }.
End Question.

Module Answer.
Record t : Type := mk { id : Z; question_id : Z; answer_text : str }.
End Answer.

Module UserCreate.
Record t : Type := mk { email : str; password : str }.
End UserCreate.

Module OAuth2PasswordRequestForm.
Record t : Type := mk { username : str; password : str }.
End OAuth2PasswordRequestForm.

(** [file] is what [file.file.read()] returns: the whole upload. *)
Module UploadFile.
Record t : Type := mk { filename : str; file : list byte }.
End UploadFile.

(** ** The deferred-task substrate *)

Inductive Task : Type := schedule_notification.

(** One accepted [task.apply_async(args, countdown=...)]. *)
Module Async.
Record t : Type := mk { task : Task; args : Z * Z; countdown : Z }.
End Async.

(** ** The world: the three tables and the pending deferred actions *)

Record World : Type := mkWorld {
  users : list User.t;
  questions : list Question.t;
  answers : list Answer.t;
  broker : list Async.t
}.

Definition empty_world : World := mkWorld [] [] [] [].

(** ** The handler monad *)

Definition M (A : Type) : Type := World -> Outcome A * World.

Definition ret {A} (a : A) : M A := fun w => (Return a, w).

Definition raise {A} (e : Exn) : M A := fun w => (Raise e, w).

Definition bind {A B} (c : M A) (k : A -> M B) : M B :=
  fun w => match c w with
           | (Return a, w') => k a w'
           | (Raise e, w') => (Raise e, w')
           end.

Notation "x <- c ;; k" := (bind c (fun x => k))
  (at level 61, c at next level, right associativity).
Notation "c ;;; k" := (bind c (fun _ => k))
  (at level 61, right associativity).

(** The result of a call that may raise, lifted into a handler. *)
Definition call {A} (o : Outcome A) : M A :=
  match o with Return a => ret a | Raise e => raise e end.

(** [for x in xs: body(x)] *)
Fixpoint for_each {A} (xs : list A) (body : A -> M unit) : M unit :=
  match xs with
  | [] => ret tt
  | x :: rest => body x ;;; for_each rest body
  end.

(** A JSON object returned by a handler: keys and string values. *)
Definition Payload : Type := list (string * str).

(** ** [crud]: the store operations the handlers call *)

(** A generated identifier: one past the largest in the table. *)
Definition next_id (ids : list Z) : Z := 1 + fold_right Z.max 0 ids.

(** Modelled from the spec: [crud.get_user_by_email] ([crud.py] is not among
    the sources). The email of a User is unique and case-sensitive as stored:
    the lookup returns the user whose email equals the argument, if any. *)
Definition get_user_by_email (email : str) : M (option User.t) :=
  fun w => (Return (find (fun u => str_eqb (User.email u) email) (users w)), w).

(** Modelled from the spec: [crud.create_user] ([crud.py] is not among the
    sources). A User is created at registration with a generated unique id,
    the email and the password hash. *)
Definition create_user (email hashed_password : str) : M User.t :=
  fun w =>
    let u := User.mk (next_id (map User.id (users w))) email hashed_password in
    (Return u, mkWorld (users w ++ [u]) (questions w) (answers w) (broker w)).

(** Modelled from the spec: [crud.create_question] ([crud.py] is not among
    the sources). One Question record per call, with a generated unique id,
    the text and the owning user's id. *)
Definition create_question (question_text : str) (user_id : Z) : M unit :=
  fun w =>
    let q := Question.mk (next_id (map Question.id (questions w)))
                         question_text user_id in
    (Return tt, mkWorld (users w) (questions w ++ [q]) (answers w) (broker w)).

(** Modelled from the spec: [crud.create_answer] ([crud.py] is not among the
    sources). One Answer record per call, with a generated unique id, the
    question's id and the answer text. *)
Definition create_answer (question_id : Z) (answer_text : str) : M unit :=
  fun w =>
    let a := Answer.mk (next_id (map Answer.id (answers w)))
                       question_id answer_text in
    (Return tt, mkWorld (users w) (questions w) (answers w ++ [a]) (broker w)).

(** [db.query(Question).filter(Question.id == question_id).first()] *)
Definition query_question_first (question_id : Z) : M (option Question.t) :=
  fun w => (Return (find (fun q => Question.id q =? question_id) (questions w)), w).

(** [task.apply_async(args, countdown=countdown)]: the substrate accepts the
    call and holds it; nothing runs in the caller. *)
Definition apply_async (task : Task) (args : Z * Z) (countdown : Z) : M unit :=
  fun w =>
    (Return tt,
     mkWorld (users w) (questions w) (answers w)
             (broker w ++ [Async.mk task args countdown])).

(** ** What the external collaborators hand back *)

Module docx.
Record Paragraph : Type := mkParagraph { text : str }.
Record DocumentObject : Type := mkDocument { paragraphs : list Paragraph }.
End docx.

Module openai.
Record Message : Type := mkMessage { role : str; content : str }.
Record Choice : Type := mkChoice { message : Message }.
Record ChatCompletion : Type := mkChatCompletion { choices : list Choice }.
End openai.

(** ** The requests the application receives *)

Inductive Route : Type :=
| POST_register (user : UserCreate.t)
| POST_token (form_data : OAuth2PasswordRequestForm.t)
| POST_import_questions (file : UploadFile.t)
| POST_generate_answer (question_id : Z)
| POST_ocr (image : UploadFile.t)
| POST_start_review (question_id : Z).

(** A request: the bearer token of its [Authorization] header, if it has
    one, and the route with its validated parameters. *)
Record Request : Type := mkRequest {
  authorization : option str;
  route : Route
}.

(** ** The handlers of [main.py] *)

(** [utils], and the libraries the handlers call: [docx.Document],
    [openai.ChatCompletion.create], [PIL.Image.open] and
    [pytesseract.image_to_string]. A library call returns or raises. *)
Class Externals : Type := {
  get_password_hash : str -> str;
  verify_password : str -> str -> bool;
  create_access_token : list (string * str) -> str;
  Document : list byte -> Outcome docx.DocumentObject;
  ChatCompletion_create :
    str -> list openai.Message -> Outcome openai.ChatCompletion;
  Img : Type;
  Image_open : list byte -> Outcome Img;
  image_to_string : Img -> Outcome str
}.

Section Handlers.

Context {E : Externals}.

(** [OAuth2PasswordBearer(tokenUrl=...)]: as a dependency of a handler it
    yields the bearer token of the request and raises the HTTP 401 when the
    request has none. It is declared in [main.py]; no handler depends on
    it. *)
Definition oauth2_scheme (request : Request) : M str :=
  match authorization request with
  | Some token => ret token
  | None => raise (HTTPException 401 (lit "Not authenticated"))
  end.

Definition register (user : UserCreate.t) : M Payload :=
  db_user <- get_user_by_email (UserCreate.email user) ;;
  match db_user with
  | Some _ => raise (HTTPException 400 (lit "Email already registered"))
  | None =>
      let hashed_password := get_password_hash (UserCreate.password user) in
      db_user <- create_user (UserCreate.email user) hashed_password ;;
      ret [("message"%string, lit "User created successfully")]
  end.

Definition login (form_data : OAuth2PasswordRequestForm.t) : M Payload :=
  db_user <- get_user_by_email (OAuth2PasswordRequestForm.username form_data) ;;
  match db_user with
  | None => raise (HTTPException 400 (lit "Incorrect email or password"))
  | Some db_user =>
      if negb (verify_password (OAuth2PasswordRequestForm.password form_data)
                               (User.hashed_password db_user))
      then raise (HTTPException 400 (lit "Incorrect email or password"))
      else
        let access_token :=
          create_access_token [("sub"%string, User.email db_user)] in
        ret [("access_token"%string, access_token);
             ("token_type"%string, lit "bearer")]
  end.

(** The [if]/[elif]/[else] of [import_questions]: the question strings of
    the upload, or the failure. *)
Definition parse_upload (file : UploadFile.t) : M (list str) :=
  if endswith (UploadFile.filename file) (lit ".txt") then
    content <- call (match decode_utf8 (UploadFile.file file) with
                     | Some s => Return s
                     | None => Raise UnicodeDecodeError
                     end) ;;
    ret (map strip (filter (fun line => truthy (strip line)) (split LF content)))
  else if endswith (UploadFile.filename file) (lit ".docx") then
    doc <- call (Document (UploadFile.file file)) ;;
    ret (map docx.text
             (filter (fun para => truthy (strip (docx.text para)))
                     (docx.paragraphs doc)))
  else raise (HTTPException 400 (lit "Unsupported file format")).

Definition import_questions (file : UploadFile.t) : M Payload :=
  questions <- parse_upload file ;;
  for_each questions (fun question_text => create_question question_text 1) ;;;
  ret [("message"%string,
        lit "Imported " ++ str_of_nat (List.length questions) ++ lit " questions")].

Definition generate_answer (question_id : Z) : M Payload :=
  question <- query_question_first question_id ;;
  match question with
  | None => raise (HTTPException 404 (lit "Question not found"))
  | Some question =>
      response <- call (ChatCompletion_create
                          (lit "gpt-3.5-turbo")
                          [openai.mkMessage (lit "user")
                                            (Question.question_text question)]) ;;
      match openai.choices response with
      | [] => raise IndexError
      | choice0 :: _ =>
          let answer_text := openai.content (openai.message choice0) in
          create_answer question_id answer_text ;;;
          ret [("answer"%string, answer_text)]
      end
  end.

Definition ocr (image : UploadFile.t) : M Payload :=
  img <- call (Image_open (UploadFile.file image)) ;;
  text <- call (image_to_string img) ;;
  ret [("text"%string, text)].

Definition intervals : list Z := [20 * 60; 8 * 3600; 24 * 3600].

Definition start_review (question_id : Z) : M Payload :=
  for_each intervals
    (fun interval =>
       apply_async schedule_notification (question_id, interval) interval) ;;;
  ret [("message"%string, lit "Review scheduled")].

(** The routing table of [app]. Each handler depends on the database
    session and on its own parameters only; none depends on
    [oauth2_scheme], so the [Authorization] header is not read. *)
Definition app (request : Request) : M Payload :=
  match route request with
  | POST_register user => register user
  | POST_token form_data => login form_data
  | POST_import_questions file => import_questions file
  | POST_generate_answer question_id => generate_answer question_id
  | POST_ocr image => ocr image
  | POST_start_review question_id => start_review question_id
  end.

End Handlers.

(** ** Auxiliary definitions for the statements *)

(** The three deferred actions one [start_review] call hands to the
    substrate. *)
Definition review_actions (question_id : Z) : list Async.t :=
  [Async.mk schedule_notification (question_id, 1200) 1200;
   Async.mk schedule_notification (question_id, 28800) 28800;
   Async.mk schedule_notification (question_id, 86400) 86400].

(** [n] calls of the same handler computation, one after the other. *)
Fixpoint repeat_call {A} (n : nat) (c : M A) : M unit :=
  match n with
  | O => ret tt
  | S k => c ;;; repeat_call k c
  end.

(** The pending actions that carry a given question id. *)
Definition actions_for (question_id : Z) (pending : list Async.t) : list Async.t :=
  filter (fun a => fst (Async.args a) =? question_id) pending.

Definition with_broker (w : World) (pending : list Async.t) : World :=
  mkWorld (users w) (questions w) (answers w) pending.

Definition with_questions (w : World) (qs : list Question.t) : World :=
  mkWorld (users w) qs (answers w) (broker w).

Definition with_answers (w : World) (ans : list Answer.t) : World :=
  mkWorld (users w) (questions w) ans (broker w).

Definition with_users (w : World) (us : list User.t) : World :=
  mkWorld us (questions w) (answers w) (broker w).

(** The records a run of [create_question] calls appends to a Question
    table, one per text, each with the id generated at its turn. *)
Fixpoint created_questions (table : list Question.t) (texts : list str)
    (user_id : Z) : list Question.t :=
  match texts with
  | [] => []
  | text :: rest =>
      let q := Question.mk (next_id (map Question.id table)) text user_id in
      q :: created_questions (table ++ [q]) rest user_id
  end.

(** The Question records of [w'] that were not yet in [w]. *)
Definition imported (w w' : World) : list Question.t :=
  skipn (List.length (questions w)) (questions w').

(** A text neither begins nor ends with a whitespace character. *)
Definition no_outer_space (t : str) : Prop :=
  (forall c r, t = c :: r -> isspace c = false)
  /\ (forall r c, t = r ++ [c] -> isspace c = false).

(** [line] is [t] with whitespace around it, and nothing else. *)
Definition padded (line t : str) : Prop :=
  exists l r, line = l ++ t ++ r
              /\ forallb isspace l = true /\ forallb isspace r = true.

(** The users of a table that carry a given email. *)
Definition users_with_email (email : str) (table : list User.t) : list User.t :=
  filter (fun u => str_eqb (User.email u) email) table.

(** Collaborators to run the handlers with: a hash that tags the password,
    a token that is the subject, a parser that finds three paragraphs, a
    chat completion with one choice, and an OCR that reads one word. *)
Definition demo_externals : Externals := {|
  get_password_hash := fun password => lit "hash:" ++ password;
  verify_password := fun password hashed => str_eqb (lit "hash:" ++ password) hashed;
  create_access_token := fun data => List.concat (map snd data);
  Document := fun _ =>
    Return (docx.mkDocument [docx.mkParagraph (lit " What is a list? ");
                             docx.mkParagraph (lit "   ");
                             docx.mkParagraph (lit "Define a monad")]);
  ChatCompletion_create := fun _ _ =>
    Return (openai.mkChatCompletion
              [openai.mkChoice (openai.mkMessage (lit "assistant") (lit " 42 "))]);
  Img := unit;
  Image_open := fun _ => Return tt;
  image_to_string := fun _ => Return (lit "text")
|}.

(** The texts of the Question records one import call adds. *)
Definition imported_texts {E : Externals} (file : UploadFile.t) (w : World) : list str :=
  map Question.question_text (imported w (snd (import_questions file w))).

(** The operations behind the login: everything except registering and
    logging in. *)
Definition protected (r : Route) : bool :=
  match r with
  | POST_register _ | POST_token _ => false
  | POST_import_questions _ | POST_generate_answer _
  | POST_ocr _ | POST_start_review _ => true
  end.

(** A request is authenticated against the credential store when it carries
    the bearer token that [login] issues for a user of the store. *)
Definition authenticated {E : Externals} (request : Request) (w : World) : Prop :=
  exists token u,
    authorization request = Some token
    /\ In u (users w)
    /\ token = create_access_token [("sub"%string, User.email u)].

(** The requirement that an operation runs for authenticated requests only:
    whenever a request for a protected operation is answered by the
    operation's own result, the request was authenticated. *)
Definition authenticated_before_dispatch : Prop :=
  forall (E : Externals) (request : Request) (w w' : World) (payload : Payload),
    protected (route request) = true ->
    app request w = (Return payload, w') ->
    authenticated request w.

(** ** Further definitions for the statements *)

(** [sep.join(pieces)] for a separator of one code point. *)
Fixpoint join (sep : N) (pieces : list str) : str :=
  match pieces with
  | [] => []
  | [piece] => piece
  | piece :: rest => piece ++ sep :: join sep rest
  end.

(** A Unicode scalar value: a code point up to U+10FFFF that is not a
    surrogate. These are the code points a Python [str] decoded from UTF-8
    holds. *)
Definition scalar_value (c : N) : bool :=
  ((c <=? 0x10FFFF) && negb ((0xD800 <=? c) && (c <=? 0xDFFF)))%N.

Definition byte_of_N (n : N) : byte :=
  match Byte.of_N n with Some b => b | None => x00 end.

(** [chr(c).encode("utf-8")]: the one to four bytes of a scalar value. *)
Definition encode_char (c : N) : list byte :=
  if (c <? 0x80)%N then [byte_of_N c]
  else if (c <? 0x800)%N then
    [byte_of_N (0xC0 + c / 64); byte_of_N (0x80 + c mod 64)]%N
  else if (c <? 0x10000)%N then
    [byte_of_N (0xE0 + c / 4096); byte_of_N (0x80 + (c / 64) mod 64);
     byte_of_N (0x80 + c mod 64)]%N
  else
    [byte_of_N (0xF0 + c / 262144); byte_of_N (0x80 + (c / 4096) mod 64);
     byte_of_N (0x80 + (c / 64) mod 64); byte_of_N (0x80 + c mod 64)]%N.

(** [s.encode("utf-8")] *)
Definition encode_utf8 (s : str) : list byte := flat_map encode_char s.

(** No two users of the store share an email. *)
Definition emails_unique (w : World) : Prop := NoDup (map User.email (users w)).

(** The world after the application has answered a sequence of requests,
    one after the other, whatever each answer was. *)
Fixpoint serve_all {E : Externals} (requests : list Request) (w : World) : World :=
  match requests with
  | [] => w
  | request :: rest => serve_all rest (snd (app request w))
  end.

(** The deferred actions a request hands to the substrate: the three of a
    start-review request, none for any other. *)
Definition actions_of (request : Request) : list Async.t :=
  match route request with
  | POST_start_review question_id => review_actions question_id
  | _ => []
  end.

(** ** [get_db]: the database session of a request *)

(** The sessions [SessionLocal()] has handed out and those closed since. *)
Record Server : Type := mkServer {
  world : World;
  sessions_opened : nat;
  sessions_closed : nat
}.

(** [SessionLocal()] and [db.close()] *)
Definition SessionLocal (s : Server) : Server :=
  mkServer (world s) (S (sessions_opened s)) (sessions_closed s).

Definition close (s : Server) : Server :=
  mkServer (world s) (sessions_opened s) (S (sessions_closed s)).

(** [get_db] around a handler that depends on it: a session is opened, the
    handler runs with it, and the [finally] closes the session whether the
    handler returned or raised. *)
Definition get_db {A} (handler : M A) (s : Server) : Outcome A * Server :=
  let s1 := SessionLocal s in
  match handler (world s1) with
  | (outcome, w') =>
      (outcome, close (mkServer w' (sessions_opened s1) (sessions_closed s1)))
  end.

(** A handler without the dependency runs with no session. *)
Definition no_db {A} (handler : M A) (s : Server) : Outcome A * Server :=
  match handler (world s) with
  | (outcome, w') => (outcome, mkServer w' (sessions_opened s) (sessions_closed s))
  end.

(** The application with the dependencies its handlers declare: every
    handler takes [db: Session = Depends(get_db)] except [ocr]. *)
Definition serve {E : Externals} (request : Request) : Server -> Outcome Payload * Server :=
  match route request with
  | POST_register user => get_db (register user)
  | POST_token form_data => get_db (login form_data)
  | POST_import_questions file => get_db (import_questions file)
  | POST_generate_answer question_id => get_db (generate_answer question_id)
  | POST_ocr image => no_db (ocr image)
  | POST_start_review question_id => get_db (start_review question_id)
  end.

(** The handlers that declare the session dependency. *)
Definition uses_db (r : Route) : bool :=
  match r with
  | POST_ocr _ => false
  | _ => true
  end.

(** The server after a sequence of requests, one after the other. *)
Fixpoint serve_seq {E : Externals} (requests : list Request) (s : Server) : Server :=
  match requests with
  | [] => s
  | request :: rest => serve_seq rest (snd (serve request s))
  end.

(** ** Collaborators that change between calls *)

(** Collaborators that are out of reach: the chat completion times out,
    the document parser and the image library reject their input. *)
Definition offline_externals : Externals := {|
  get_password_hash := fun password => lit "hash:" ++ password;
  verify_password := fun password hashed => str_eqb (lit "hash:" ++ password) hashed;
  create_access_token := fun data => List.concat (map snd data);
  Document := fun _ => Raise (UpstreamError (lit "not a zip file"));
  ChatCompletion_create := fun _ _ => Raise (UpstreamError (lit "timeout"));
  Img := unit;
  Image_open := fun _ => Raise (UpstreamError (lit "cannot identify image file"));
  image_to_string := fun _ => Return []
|}.

(** Collaborators like those of [demo_externals], with a chat completion
    that gives two choices, the first of them "forty-two". *)
Definition wordy_externals : Externals := {|
  get_password_hash := fun password => lit "hash:" ++ password;
  verify_password := fun password hashed => str_eqb (lit "hash:" ++ password) hashed;
  create_access_token := fun data => List.concat (map snd data);
  Document := fun _ => Return (docx.mkDocument []);
  ChatCompletion_create := fun _ _ =>
    Return (openai.mkChatCompletion
              [openai.mkChoice (openai.mkMessage (lit "assistant") (lit "forty-two"));
               openai.mkChoice (openai.mkMessage (lit "assistant") (lit "42"))]);
  Img := unit;
  Image_open := fun _ => Return tt;
  image_to_string := fun _ => Return (lit "text")
|}.

(** [generate_answer] called once per element of a list, the i-th call made
    while the collaborators behave as the i-th element says: the chat
    completion may answer differently, or fail, from one call to the next. *)
Fixpoint answer_with (environments : list Externals) (question_id : Z) : M unit :=
  match environments with
  | [] => ret tt
  | E :: rest => generate_answer (E := E) question_id ;;; answer_with rest question_id
  end.

(** The text of the first choice the chat completion gives for a question,
    when the call returns and has a choice. *)
Definition first_reply {E : Externals} (question : Question.t) : option str :=
  match ChatCompletion_create (lit "gpt-3.5-turbo")
          [openai.mkMessage (lit "user") (Question.question_text question)] with
  | Return completion =>
      match openai.choices completion with
      | choice0 :: _ => Some (openai.content (openai.message choice0))
      | [] => None
      end
  | Raise _ => None
  end.

(** ** Tactics *)

(** Linear arithmetic with division and remainder by constants. *)
Ltac lia_div := zify; Z.to_euclidean_division_equations; lia.

(** One case split on the next test or list a decoding hypothesis [H]
    depends on. *)
Ltac decode_case H :=
  match type of H with
  | context [match ?l with [] => _ | _ :: _ => _ end] => is_var l; destruct l
  | context [(?a <? ?b)%N] =>
      let C := fresh "C" in
      destruct (a <? b)%N eqn:C; [apply N.ltb_lt in C | apply N.ltb_ge in C]
  | context [(?a <=? ?b)%N] =>
      let C := fresh "C" in
      destruct (a <=? b)%N eqn:C; [apply N.leb_le in C | apply N.leb_gt in C]
  | context [(?a =? ?b)%N] =>
      let C := fresh "C" in
      destruct (a =? b)%N eqn:C; [apply N.eqb_eq in C | apply N.eqb_neq in C]
  | context [option_map _ ?o] => destruct o eqn:?
  end;
  cbn [andb option_map] in H; try discriminate H.

(** One case split on the next comparison of the goal; impossible cases
    are closed by arithmetic. *)
Ltac encode_case :=
  match goal with
  | |- context [(?a <? ?b)%N] =>
      let C := fresh "C" in
      destruct (a <? b)%N eqn:C; [apply N.ltb_lt in C | apply N.ltb_ge in C]
  | |- context [(?a <=? ?b)%N] =>
      let C := fresh "C" in
      destruct (a <=? b)%N eqn:C; [apply N.leb_le in C | apply N.leb_gt in C]
  | |- context [(?a =? ?b)%N] =>
      let C := fresh "C" in
      destruct (a =? b)%N eqn:C; [apply N.eqb_eq in C | apply N.eqb_neq in C]
  end;
  cbn [andb]; try (exfalso; lia_div).

(** Case analysis on a hypothesis made of conjunctions, disjunctions and
    existentials over outcomes, closed by congruence. *)
Ltac cases_of H :=
  repeat match goal with
         | H' : _ /\ _ |- _ => destruct H'
         | H' : _ \/ _ |- _ => destruct H'
         | H' : exists _, _ |- _ => destruct H'
         | H' : Some _ = Some _ |- _ => inversion H'; subst; clear H'
         | H' : Return _ = Return _ |- _ => inversion H'; subst; clear H'
         | H' : Raise _ = Raise _ |- _ => inversion H'; subst; clear H'
         end;
  subst; first [congruence | intuition congruence].

(** * Properties *)

(** ** The review scheduler *)

Lemma intervals_value : intervals = [1200; 28800; 86400].
Proof. unfold intervals. repeat f_equal. Qed.

Lemma start_review_run (question_id : Z) (w : World) :
  start_review question_id w =
  (Return [("message"%string, lit "Review scheduled")],
   with_broker w (broker w ++ review_actions question_id)).
Proof.
  unfold start_review. rewrite intervals_value.
  unfold bind, for_each, apply_async, ret, with_broker, review_actions, bind.
  cbn [users questions answers broker].
  rewrite <- !app_assoc. reflexivity.
Qed.

(** C1: one call of [start_review] hands exactly three deferred actions to
    the substrate, after those already pending, with offsets 1200, 28800 and
    86400 seconds in that order; each carries the question id of the call
    and its own offset, with a countdown equal to the offset. The call then
    returns the message "Review scheduled" with all three still pending, and
    leaves the tables as they were. *)
Theorem start_review_schedules_three (question_id : Z) (w : World) :
  exists a1 a2 a3 : Async.t,
    start_review question_id w =
      (Return [("message"%string, lit "Review scheduled")],
       mkWorld (users w) (questions w) (answers w) (broker w ++ [a1; a2; a3]))
    /\ map Async.countdown [a1; a2; a3] = [1200; 28800; 86400]
    /\ map Async.args [a1; a2; a3] =
         [(question_id, 1200); (question_id, 28800); (question_id, 86400)]
    /\ map Async.task [a1; a2; a3] =
         [schedule_notification; schedule_notification; schedule_notification].
Proof.
  exists (Async.mk schedule_notification (question_id, 1200) 1200),
         (Async.mk schedule_notification (question_id, 28800) 28800),
         (Async.mk schedule_notification (question_id, 86400) 86400).
  split; [apply start_review_run | repeat split].
Qed.

Lemma repeat_call_start_review (question_id : Z) (n : nat) (w : World) :
  repeat_call n (start_review question_id) w =
  (Return tt,
   with_broker w (broker w ++ List.concat (repeat (review_actions question_id) n))).
Proof.
  revert w. induction n as [|n IH]; intros w.
  - cbn. unfold ret, with_broker. rewrite app_nil_r. now destruct w.
  - cbn [repeat_call]. unfold bind at 1. rewrite start_review_run, IH.
    unfold with_broker. cbn [users questions answers broker repeat List.concat].
    now rewrite <- app_assoc.
Qed.

Lemma length_concat_review_actions (question_id : Z) (n : nat) :
  List.length (List.concat (repeat (review_actions question_id) n)) = (3 * n)%nat.
Proof.
  induction n as [|n IH]; [reflexivity|].
  cbn [repeat List.concat]. rewrite length_app, IH. cbn [review_actions List.length]. lia.
Qed.

Lemma actions_for_review_actions (question_id : Z) (n : nat) :
  actions_for question_id (List.concat (repeat (review_actions question_id) n))
  = List.concat (repeat (review_actions question_id) n).
Proof.
  induction n as [|n IH]; [reflexivity|].
  cbn [repeat List.concat]. unfold actions_for in *. rewrite filter_app, IH.
  f_equal. cbn. now rewrite Z.eqb_refl.
Qed.

(** C2: [n] calls of [start_review] for the same question all succeed and
    add exactly [3 * n] deferred actions to those pending, every one of them
    for that question: nothing is merged or dropped. Two calls add six. *)
Theorem start_review_n_times (question_id : Z) (n : nat) (w : World) :
  exists w' : World,
    repeat_call n (start_review question_id) w = (Return tt, w')
    /\ broker w' = broker w ++ List.concat (repeat (review_actions question_id) n)
    /\ List.length (broker w') = (List.length (broker w) + 3 * n)%nat
    /\ List.length (actions_for question_id (broker w'))
       = (List.length (actions_for question_id (broker w)) + 3 * n)%nat
    /\ List.length
         (broker (snd (repeat_call 2 (start_review question_id) w)))
       = (List.length (broker w) + 6)%nat.
Proof.
  eexists. split; [apply repeat_call_start_review|].
  unfold with_broker; cbn [broker]. split; [reflexivity|].
  split; [|split].
  - now rewrite length_app, length_concat_review_actions.
  - unfold actions_for at 1. rewrite filter_app. fold (actions_for question_id (broker w)).
    fold (actions_for question_id (List.concat (repeat (review_actions question_id) n))).
    now rewrite length_app, actions_for_review_actions, length_concat_review_actions.
  - rewrite repeat_call_start_review. unfold with_broker; cbn [snd broker].
    now rewrite length_app, length_concat_review_actions.
Qed.

(** C5: [start_review] returns "Review scheduled" for every question id and
    in every world: it raises nothing, and its answer is the same whatever
    the Question table holds, the empty table included, so an id that
    references no Question is accepted like any other. *)
Theorem start_review_never_fails (question_id : Z) (w : World) :
  fst (start_review question_id w)
    = Return [("message"%string, lit "Review scheduled")]
  /\ (forall e : Exn, fst (start_review question_id w) <> Raise e)
  /\ (forall qs : list Question.t,
        fst (start_review question_id (with_questions w qs))
        = fst (start_review question_id w))
  /\ fst (query_question_first question_id (with_questions w [])) = Return None
  /\ fst (start_review question_id (with_questions w []))
       = Return [("message"%string, lit "Review scheduled")].
Proof.
  rewrite !start_review_run. cbn [fst].
  split; [reflexivity|]. split; [discriminate|].
  split; [intros qs; now rewrite start_review_run|].
  split; reflexivity.
Qed.

(** ** Strings *)

Lemma str_eqb_eq (a b : str) : str_eqb a b = true <-> a = b.
Proof.
  unfold str_eqb. destruct (list_eq_dec N.eq_dec a b); split; intros; congruence.
Qed.

Lemma str_eqb_refl (a : str) : str_eqb a a = true.
Proof. now apply str_eqb_eq. Qed.

Lemma endswith_app (s suffix : str) : endswith (s ++ suffix) suffix = true.
Proof.
  unfold endswith. rewrite length_app.
  replace (List.length s + List.length suffix - List.length suffix)%nat
    with (List.length s + 0)%nat by lia.
  rewrite skipn_app, Nat.add_0_r, skipn_all.
  replace (List.length s - List.length s)%nat with 0%nat by lia.
  cbn [skipn List.app]. rewrite str_eqb_refl, andb_true_r.
  apply Nat.leb_le. lia.
Qed.

Lemma lstrip_decomp (s : str) :
  exists l, s = l ++ lstrip s /\ forallb isspace l = true.
Proof.
  induction s as [|c s [l [Hs Hl]]].
  - now exists [].
  - cbn [lstrip]. destruct (isspace c) eqn:Hc.
    + exists (c :: l). cbn [List.app forallb]. rewrite Hc, Hl.
      split; [now f_equal | reflexivity].
    + now exists [].
Qed.

Lemma lstrip_head (s : str) (c : N) (r : str) :
  lstrip s = c :: r -> isspace c = false.
Proof.
  induction s as [|d s IH]; cbn [lstrip]; [discriminate|].
  destruct (isspace d) eqn:Hd; [exact IH|].
  intros H. now inversion H; subst.
Qed.

Lemma forallb_rev {A} (f : A -> bool) (l : list A) :
  forallb f (rev l) = forallb f l.
Proof.
  induction l as [|a l IH]; [reflexivity|].
  cbn [rev forallb]. rewrite forallb_app, IH. cbn. rewrite andb_true_r. apply andb_comm.
Qed.

Lemma strip_padded (s : str) : padded s (strip s).
Proof.
  destruct (lstrip_decomp s) as [l [Hs Hl]].
  destruct (lstrip_decomp (rev (lstrip s))) as [r [Hr Hrs]].
  exists l, (rev r). repeat split; [|exact Hl|now rewrite forallb_rev].
  unfold strip, rstrip. rewrite <- rev_app_distr, <- Hr, rev_involutive. exact Hs.
Qed.

Lemma strip_no_outer_space (s : str) : no_outer_space (strip s).
Proof.
  split.
  - intros c r H. destruct (lstrip_decomp (rev (lstrip s))) as [p [Hp _]].
    apply (f_equal (@rev N)) in Hp. rewrite rev_involutive, rev_app_distr in Hp.
    fold (rstrip (lstrip s)) in Hp. fold (strip s) in Hp. rewrite H in Hp.
    cbn [List.app] in Hp. exact (lstrip_head s c _ Hp).
  - intros r c H. unfold strip, rstrip in H.
    apply (f_equal (@rev N)) in H. rewrite rev_involutive, rev_app_distr in H.
    cbn [rev List.app] in H. exact (lstrip_head _ c _ H).
Qed.

(** ** The import handler *)

Lemma created_questions_texts (table : list Question.t) (texts : list str) (user_id : Z) :
  map Question.question_text (created_questions table texts user_id) = texts.
Proof.
  revert table. induction texts as [|t texts IH]; intros table; [reflexivity|].
  cbn [created_questions map Question.question_text]. now rewrite IH.
Qed.

Lemma created_questions_owner (table : list Question.t) (texts : list str) (user_id : Z) :
  Forall (fun q => Question.user_id q = user_id)
         (created_questions table texts user_id).
Proof.
  revert table. induction texts as [|t texts IH]; intros table; cbn [created_questions].
  - constructor.
  - constructor; [reflexivity | apply IH].
Qed.

Lemma created_questions_length (table : list Question.t) (texts : list str) (user_id : Z) :
  List.length (created_questions table texts user_id) = List.length texts.
Proof.
  rewrite <- (created_questions_texts table texts user_id) at 2. now rewrite length_map.
Qed.

Lemma for_each_create_question (texts : list str) (user_id : Z) (w : World) :
  for_each texts (fun question_text => create_question question_text user_id) w
  = (Return tt,
     with_questions w (questions w ++ created_questions (questions w) texts user_id)).
Proof.
  revert w. induction texts as [|t texts IH]; intros w.
  - cbn. unfold ret, with_questions. rewrite app_nil_r. now destruct w.
  - cbn [for_each created_questions]. unfold bind at 1, create_question at 1.
    rewrite IH. unfold with_questions. cbn [users questions answers broker].
    now rewrite <- app_assoc.
Qed.

(** The [if]/[elif]/[else] of the handler reads the upload only. *)
Lemma parse_upload_world {E : Externals} (file : UploadFile.t) (w : World) :
  snd (parse_upload file w) = w.
Proof.
  unfold parse_upload.
  destruct (endswith _ (lit ".txt")).
  - unfold bind, call. now destruct (decode_utf8 _).
  - destruct (endswith _ (lit ".docx")); [|reflexivity].
    unfold bind, call. now destruct (Document _).
Qed.

Lemma import_questions_run {E : Externals} (file : UploadFile.t) (w : World) :
  import_questions file w =
  match fst (parse_upload file w) with
  | Return texts =>
      (Return [("message"%string,
                lit "Imported " ++ str_of_nat (List.length texts) ++ lit " questions")],
       with_questions w (questions w ++ created_questions (questions w) texts 1))
  | Raise e => (Raise e, w)
  end.
Proof.
  unfold import_questions. unfold bind at 1.
  pose proof (parse_upload_world file w) as Hw.
  destruct (parse_upload file w) as [[texts|e] w1]; cbn [fst snd] in *; subst w1.
  - unfold bind. now rewrite for_each_create_question.
  - reflexivity.
Qed.

Lemma imported_app (w : World) (new : list Question.t) :
  imported w (with_questions w (questions w ++ new)) = new.
Proof.
  unfold imported, with_questions. cbn [questions].
  rewrite skipn_app, skipn_all, Nat.sub_diag. reflexivity.
Qed.

Lemma parse_upload_txt {E : Externals} (file : UploadFile.t) (content : str) (w : World) :
  endswith (UploadFile.filename file) (lit ".txt") = true ->
  decode_utf8 (UploadFile.file file) = Some content ->
  parse_upload file w
  = (Return (map strip (filter (fun line => truthy (strip line)) (split LF content))), w).
Proof.
  intros Hext Hdec. unfold parse_upload. now rewrite Hext, Hdec.
Qed.

Lemma parse_upload_docx {E : Externals} (file : UploadFile.t)
    (doc : docx.DocumentObject) (w : World) :
  endswith (UploadFile.filename file) (lit ".txt") = false ->
  endswith (UploadFile.filename file) (lit ".docx") = true ->
  Document (UploadFile.file file) = Return doc ->
  parse_upload file w
  = (Return (map docx.text
               (filter (fun para => truthy (strip (docx.text para)))
                       (docx.paragraphs doc))), w).
Proof.
  intros Htxt Hdocx Hdoc. unfold parse_upload. now rewrite Htxt, Hdocx, Hdoc.
Qed.

(** C3: whatever bearer token the request carries and whichever users
    exist, the Question records an import request adds are all owned by
    user id 1; they are one per question string read from the upload, in
    that order (and none when reading the upload fails). The upload may be a
    .txt or a .docx file: the loop that creates the records is the same. *)
Theorem import_owner_is_user_1 {E : Externals}
    (token : option str) (file : UploadFile.t) (w : World) :
  exists new : list Question.t,
    questions (snd (app (mkRequest token (POST_import_questions file)) w))
      = questions w ++ new
    /\ Forall (fun q => Question.user_id q = 1) new
    /\ match fst (parse_upload file w) with
       | Return texts => map Question.question_text new = texts
       | Raise _ => new = []
       end.
Proof.
  unfold app. cbn [route]. rewrite import_questions_run.
  destruct (fst (parse_upload file w)) as [texts|e].
  - exists (created_questions (questions w) texts 1). cbn [snd with_questions questions].
    split; [reflexivity|]. split.
    + apply created_questions_owner.
    + apply created_questions_texts.
  - exists []. cbn [snd]. rewrite app_nil_r. repeat split. constructor.
Qed.

(** C6: importing a file whose name ends in .txt and whose content is the
    five bytes of "a\n\nb\n" succeeds with "Imported 2 questions" and adds
    exactly two Question records, with texts "a" and "b" in that order; the
    bytes decode as UTF-8 to five characters that split at the line feeds
    into "a", "", "b" and "", of which the empty ones are dropped. *)
Theorem import_txt_two_questions {E : Externals} (stem : str) (w : World) :
  exists q1 q2 : Question.t,
    import_questions
      (UploadFile.mk (stem ++ lit ".txt") [x61; x0a; x0a; x62; x0a]) w
    = (Return [("message"%string, lit "Imported 2 questions")],
       with_questions w (questions w ++ [q1; q2]))
    /\ Question.question_text q1 = lit "a"
    /\ Question.question_text q2 = lit "b"
    /\ decode_utf8 [x61; x0a; x0a; x62; x0a] = Some [97; 10; 10; 98; 10]%N
    /\ split LF [97; 10; 10; 98; 10]%N = [lit "a"; []; lit "b"; []].
Proof.
  eexists _, _. rewrite import_questions_run.
  rewrite (parse_upload_txt _ [97; 10; 10; 98; 10]%N);
    [| apply endswith_app | reflexivity].
  cbn [fst]. repeat split.
Qed.

(** C7: importing a file whose name ends in neither .txt nor .docx raises
    the HTTP 400 "Unsupported file format" and leaves the world, hence the
    Question table, exactly as it was. *)
Theorem import_unsupported_format {E : Externals} (file : UploadFile.t) (w : World) :
  endswith (UploadFile.filename file) (lit ".txt") = false ->
  endswith (UploadFile.filename file) (lit ".docx") = false ->
  import_questions file w = (Raise UnsupportedFormat, w)
  /\ questions (snd (import_questions file w)) = questions w.
Proof.
  intros Htxt Hdocx.
  assert (H : import_questions file w = (Raise UnsupportedFormat, w)).
  { rewrite import_questions_run. unfold parse_upload. now rewrite Htxt, Hdocx. }
  now rewrite H.
Qed.

(** C7 at a file named notes.pdf. *)
Lemma import_unsupported_format_pdf :
  import_questions (E := demo_externals)
    (UploadFile.mk (lit "notes.pdf") [x25; x50; x44; x46]) empty_world
  = (Raise UnsupportedFormat, empty_world)
  /\ questions (snd (import_questions (E := demo_externals)
                       (UploadFile.mk (lit "notes.pdf") [x25; x50; x44; x46])
                       empty_world))
     = questions empty_world.
Proof.
  apply (import_unsupported_format (E := demo_externals)
           (UploadFile.mk (lit "notes.pdf") [x25; x50; x44; x46]) empty_world);
    reflexivity.
Defined.

Lemma imported_texts_run {E : Externals} (file : UploadFile.t) (texts : list str) (w : World) :
  parse_upload file w = (Return texts, w) -> imported_texts file w = texts.
Proof.
  intros H. unfold imported_texts. rewrite import_questions_run, H. cbn [fst snd].
  now rewrite imported_app, created_questions_texts.
Qed.

(** C10: the two formats treat surrounding whitespace differently. For a
    .txt upload the stored texts are the stripped non-blank lines, in order:
    each is a line of the file without the whitespace around it, is not
    empty, and neither begins nor ends with whitespace. For a .docx upload
    the stored texts are the paragraph texts that are not blank after
    stripping, in order and exactly as the parser gave them. *)
Theorem import_whitespace_by_format {E : Externals} (file : UploadFile.t) (w : World) :
  (forall content : str,
      endswith (UploadFile.filename file) (lit ".txt") = true ->
      decode_utf8 (UploadFile.file file) = Some content ->
      imported_texts file w
        = map strip (filter (fun line => truthy (strip line)) (split LF content))
      /\ Forall (fun t => t <> [] /\ no_outer_space t
                          /\ exists line, In line (split LF content)
                                          /\ t = strip line /\ padded line t)
                (imported_texts file w))
  /\ (forall doc : docx.DocumentObject,
        endswith (UploadFile.filename file) (lit ".txt") = false ->
        endswith (UploadFile.filename file) (lit ".docx") = true ->
        Document (UploadFile.file file) = Return doc ->
        imported_texts file w
          = filter (fun t => truthy (strip t)) (map docx.text (docx.paragraphs doc))
        /\ Forall (fun t => strip t <> []
                            /\ In t (map docx.text (docx.paragraphs doc)))
                  (imported_texts file w)).
Proof.
  split.
  - intros content Hext Hdec.
    rewrite (imported_texts_run file _ w (parse_upload_txt file content w Hext Hdec)).
    split; [reflexivity|].
    apply Forall_forall. intros t Ht.
    apply in_map_iff in Ht. destruct Ht as [line [<- Hline]].
    apply filter_In in Hline. destruct Hline as [Hin Hne].
    split; [|split].
    + intros Hnil. now rewrite Hnil in Hne.
    + apply strip_no_outer_space.
    + exists line. split; [exact Hin|]. split; [reflexivity | apply strip_padded].
  - intros doc Htxt Hdocx Hdoc.
    rewrite (imported_texts_run file _ w (parse_upload_docx file doc w Htxt Hdocx Hdoc)).
    rewrite (filter_map_swap (fun t => truthy (strip t)) docx.text).
    split; [reflexivity|].
    rewrite <- (filter_map_swap (fun t => truthy (strip t)) docx.text).
    apply Forall_forall. intros t Ht.
    apply filter_In in Ht. destruct Ht as [Hin Hne].
    split; [|exact Hin].
    intros Hnil. now rewrite Hnil in Hne.
Qed.

(** C10 at a text file that holds " a ", a tab and "b" on three lines, and
    at a document with the paragraphs " What is a list? ", "   " and
    "Define a monad". *)
Lemma import_whitespace_by_format_demo :
  imported_texts (E := demo_externals)
    (UploadFile.mk (lit "q.txt") [x20; x61; x20; x0a; x09; x0a; x62]) empty_world
  = [lit "a"; lit "b"]
  /\ imported_texts (E := demo_externals)
       (UploadFile.mk (lit "q.docx") [x50; x4b]) empty_world
     = [lit " What is a list? "; lit "Define a monad"].
Proof.
  split.
  - exact (proj1 (proj1 (import_whitespace_by_format (E := demo_externals)
                           (UploadFile.mk (lit "q.txt")
                                          [x20; x61; x20; x0a; x09; x0a; x62])
                           empty_world)
                        [32; 97; 32; 10; 9; 10; 98]%N eq_refl eq_refl)).
  - exact (proj1 (proj2 (import_whitespace_by_format (E := demo_externals)
                           (UploadFile.mk (lit "q.docx") [x50; x4b]) empty_world)
                        (docx.mkDocument
                           [docx.mkParagraph (lit " What is a list? ");
                            docx.mkParagraph (lit "   ");
                            docx.mkParagraph (lit "Define a monad")])
                        eq_refl eq_refl eq_refl)).
Defined.

(** ** Registration *)

Lemma find_app {A} (p : A -> bool) (l1 l2 : list A) :
  find p (l1 ++ l2) = match find p l1 with Some x => Some x | None => find p l2 end.
Proof.
  induction l1 as [|a l1 IH]; [reflexivity|].
  cbn [List.app find]. now destruct (p a).
Qed.

Lemma filter_nil_find {A} (p : A -> bool) (l : list A) :
  filter p l = [] -> find p l = None.
Proof.
  induction l as [|a l IH]; [reflexivity|].
  cbn [filter find]. destruct (p a); [discriminate | exact IH].
Qed.

Lemma register_new {E : Externals} (user : UserCreate.t) (w : World) :
  users_with_email (UserCreate.email user) (users w) = [] ->
  register user w
  = (Return [("message"%string, lit "User created successfully")],
     with_users w
       (users w ++ [User.mk (next_id (map User.id (users w)))
                            (UserCreate.email user)
                            (get_password_hash (UserCreate.password user))])).
Proof.
  intros Hnew. unfold register, bind at 1, get_user_by_email.
  now rewrite (filter_nil_find _ _ Hnew).
Qed.

Lemma register_known {E : Externals} (user : UserCreate.t) (u : User.t) (w : World) :
  In u (users_with_email (UserCreate.email user) (users w)) ->
  register user w = (Raise AlreadyExists, w).
Proof.
  intros Hin. unfold register, bind at 1, get_user_by_email.
  destruct (find _ (users w)) as [found|] eqn:Hfind; [reflexivity|].
  apply filter_In in Hin. destruct Hin as [Hin Hmail].
  now rewrite (find_none _ _ Hfind u Hin) in Hmail.
Qed.

(** C8: when an email is not registered yet, registering it succeeds with
    "User created successfully" and adds one User with that email and the
    hash of the password; registering the same email again, with any
    password, raises the HTTP 400 "Email already registered" and leaves the
    world as it was, so the store still holds exactly one User with that
    email. *)
Theorem register_same_email_twice {E : Externals}
    (email password1 password2 : str) (w : World) :
  users_with_email email (users w) = [] ->
  exists (u : User.t) (w1 : World),
    register (UserCreate.mk email password1) w
      = (Return [("message"%string, lit "User created successfully")], w1)
    /\ users w1 = users w ++ [u]
    /\ User.email u = email
    /\ User.hashed_password u = get_password_hash password1
    /\ register (UserCreate.mk email password2) w1 = (Raise AlreadyExists, w1)
    /\ users_with_email email (users w1) = [u].
Proof.
  intros Hnew.
  pose (u := User.mk (next_id (map User.id (users w))) email (get_password_hash password1)).
  assert (Hone : users_with_email email (users w ++ [u]) = [u]).
  { unfold users_with_email in *. rewrite filter_app, Hnew.
    cbn [filter u User.email List.app]. now rewrite str_eqb_refl. }
  exists u, (with_users w (users w ++ [u])).
  split; [exact (register_new (UserCreate.mk email password1) w Hnew)|].
  cbn [with_users users]. repeat split; [|exact Hone].
  apply (register_known (UserCreate.mk email password2) u).
  unfold with_users. cbn [UserCreate.email users]. rewrite Hone. now left.
Qed.

(** C8 at ann@example.org in the empty world. *)
Lemma register_same_email_twice_demo :
  exists (u : User.t) (w1 : World),
    register (E := demo_externals)
        (UserCreate.mk (lit "ann@example.org") (lit "first")) empty_world
      = (Return [("message"%string, lit "User created successfully")], w1)
    /\ users w1 = users empty_world ++ [u]
    /\ User.email u = lit "ann@example.org"
    /\ User.hashed_password u = get_password_hash (Externals := demo_externals) (lit "first")
    /\ register (E := demo_externals)
         (UserCreate.mk (lit "ann@example.org") (lit "second")) w1
       = (Raise AlreadyExists, w1)
    /\ users_with_email (lit "ann@example.org") (users w1) = [u].
Proof.
  exact (register_same_email_twice (E := demo_externals)
           (lit "ann@example.org") (lit "first") (lit "second") empty_world eq_refl).
Defined.

(** ** Answer generation *)

(** C9: for a question id that no Question has, [generate_answer] raises
    the HTTP 404 "Question not found" and leaves the world, hence the Answer
    table, as it was. For the id of a Question, when the chat completion
    comes back with a first choice, exactly one Answer record is added, for
    that question id and holding the content of that choice unchanged, and
    the same content is returned under "answer". *)
Theorem generate_answer_outcome {E : Externals} (question_id : Z) (w : World) :
  (find (fun q => Question.id q =? question_id) (questions w) = None ->
   generate_answer question_id w = (Raise NotFound, w)
   /\ answers (snd (generate_answer question_id w)) = answers w)
  /\ (forall (question : Question.t) (completion : openai.ChatCompletion)
             (choice0 : openai.Choice) (others : list openai.Choice),
        find (fun q => Question.id q =? question_id) (questions w) = Some question ->
        ChatCompletion_create (lit "gpt-3.5-turbo")
          [openai.mkMessage (lit "user") (Question.question_text question)]
          = Return completion ->
        openai.choices completion = choice0 :: others ->
        exists a : Answer.t,
          generate_answer question_id w
            = (Return [("answer"%string, openai.content (openai.message choice0))],
               with_answers w (answers w ++ [a]))
          /\ Answer.question_id a = question_id
          /\ Answer.answer_text a = openai.content (openai.message choice0)).
Proof.
  split.
  - intros Hnone.
    assert (H : generate_answer question_id w = (Raise NotFound, w)).
    { unfold generate_answer, bind at 1, query_question_first. now rewrite Hnone. }
    now rewrite H.
  - intros question completion choice0 others Hsome Hchat Hchoices.
    exists (Answer.mk (next_id (map Answer.id (answers w))) question_id
                      (openai.content (openai.message choice0))).
    unfold generate_answer, bind at 1, query_question_first. rewrite Hsome.
    unfold bind at 1. rewrite Hchat. cbn [call ret]. rewrite Hchoices.
    repeat split.
Qed.

(** C9 in a world with the single question number 1: id 2 is not found, and
    id 1 gets the completion " 42 " as its answer. *)
Lemma generate_answer_outcome_demo :
  (generate_answer (E := demo_externals) 2
     (with_questions empty_world [Question.mk 1 (lit "6 * 7?") 1])
   = (Raise NotFound, with_questions empty_world [Question.mk 1 (lit "6 * 7?") 1])
   /\ answers (snd (generate_answer (E := demo_externals) 2
                      (with_questions empty_world [Question.mk 1 (lit "6 * 7?") 1])))
      = [])
  /\ exists a : Answer.t,
       generate_answer (E := demo_externals) 1
         (with_questions empty_world [Question.mk 1 (lit "6 * 7?") 1])
       = (Return [("answer"%string, lit " 42 ")],
          with_answers (with_questions empty_world [Question.mk 1 (lit "6 * 7?") 1]) [a])
       /\ Answer.question_id a = 1
       /\ Answer.answer_text a = lit " 42 ".
Proof.
  split.
  - exact (proj1 (generate_answer_outcome (E := demo_externals) 2
                    (with_questions empty_world [Question.mk 1 (lit "6 * 7?") 1]))
                 eq_refl).
  - exact (proj2 (generate_answer_outcome (E := demo_externals) 1
                    (with_questions empty_world [Question.mk 1 (lit "6 * 7?") 1]))
                 (Question.mk 1 (lit "6 * 7?") 1)
                 (openai.mkChatCompletion
                    [openai.mkChoice (openai.mkMessage (lit "assistant") (lit " 42 "))])
                 (openai.mkChoice (openai.mkMessage (lit "assistant") (lit " 42 ")))
                 [] eq_refl eq_refl eq_refl).
Defined.

(** ** Dispatch and authentication *)

Lemma parse_upload_outcome {E : Externals} (file : UploadFile.t) (w w' : World) :
  fst (parse_upload file w) = fst (parse_upload file w').
Proof.
  unfold parse_upload.
  destruct (endswith _ (lit ".txt")).
  - unfold bind, call. now destruct (decode_utf8 _).
  - destruct (endswith _ (lit ".docx")); [|reflexivity].
    unfold bind, call. now destruct (Document _).
Qed.

(** C4: requests are meant to be authenticated before they are dispatched
    ([oauth2_scheme] is declared for it and [login] issues the tokens), but
    no handler depends on the scheme. At a start-review request that carries
    no token, sent while the credential store is empty, the request is not
    authenticated and [oauth2_scheme] would have raised the HTTP 401, yet
    the scheduler runs and answers "Review scheduled" with the three actions
    queued: the requirement does not hold of the application. *)
Lemma start_review_runs_unauthenticated :
  protected (route (mkRequest None (POST_start_review 7))) = true
  /\ app (E := demo_externals) (mkRequest None (POST_start_review 7)) empty_world
     = (Return [("message"%string, lit "Review scheduled")],
        with_broker empty_world (review_actions 7))
  /\ ~ authenticated (E := demo_externals)
         (mkRequest None (POST_start_review 7)) empty_world
  /\ fst (oauth2_scheme (mkRequest None (POST_start_review 7)) empty_world)
     = Raise (HTTPException 401 (lit "Not authenticated"))
  /\ ~ authenticated_before_dispatch.
Proof.
  assert (Hno : ~ authenticated (E := demo_externals)
                  (mkRequest None (POST_start_review 7)) empty_world).
  { intros [token [u [Htoken _]]]. discriminate Htoken. }
  repeat split; [exact Hno|].
  intros Hclaim. apply Hno.
  apply (Hclaim demo_externals (mkRequest None (POST_start_review 7)) empty_world
                (with_broker empty_world (review_actions 7))
                [("message"%string, lit "Review scheduled")]); reflexivity.
Qed.

(** ** Login *)

(** Login fails with the HTTP 400 "Incorrect email or password" when the
    email is unknown and when the password does not verify against the
    stored hash, and then issues no token; otherwise it returns the token
    made for the stored email, as a bearer token. The world is unchanged in
    every case. *)
Theorem login_outcome {E : Externals} (form_data : OAuth2PasswordRequestForm.t)
    (w : World) :
  (find (fun u => str_eqb (User.email u) (OAuth2PasswordRequestForm.username form_data))
        (users w) = None ->
   login form_data w = (Raise InvalidCredentials, w))
  /\ (forall db_user : User.t,
        find (fun u => str_eqb (User.email u)
                               (OAuth2PasswordRequestForm.username form_data))
             (users w) = Some db_user ->
        (verify_password (OAuth2PasswordRequestForm.password form_data)
                         (User.hashed_password db_user) = false ->
         login form_data w = (Raise InvalidCredentials, w))
        /\ (verify_password (OAuth2PasswordRequestForm.password form_data)
                            (User.hashed_password db_user) = true ->
            login form_data w
            = (Return [("access_token"%string,
                        create_access_token [("sub"%string, User.email db_user)]);
                       ("token_type"%string, lit "bearer")], w))).
Proof.
  unfold login, bind, get_user_by_email. split.
  - intros Hnone. now rewrite Hnone.
  - intros db_user Hsome. rewrite Hsome.
    split; intros Hverify; now rewrite Hverify.
Qed.

(** [login_outcome] for ann@example.org, registered with the password
    "first": the password "second" is refused. *)
Lemma login_outcome_demo :
  login (E := demo_externals)
    (OAuth2PasswordRequestForm.mk (lit "ann@example.org") (lit "second"))
    (with_users empty_world [User.mk 1 (lit "ann@example.org") (lit "hash:first")])
  = (Raise InvalidCredentials,
     with_users empty_world [User.mk 1 (lit "ann@example.org") (lit "hash:first")]).
Proof.
  exact (proj1 (proj2 (login_outcome (E := demo_externals)
                         (OAuth2PasswordRequestForm.mk (lit "ann@example.org")
                                                       (lit "second"))
                         (with_users empty_world
                            [User.mk 1 (lit "ann@example.org") (lit "hash:first")]))
                      (User.mk 1 (lit "ann@example.org") (lit "hash:first")) eq_refl)
               eq_refl).
Defined.

(** ** More on strings *)

(** [endswith] holds exactly for the strings that are some prefix followed
    by the suffix; hence no file name ends in both .txt and .docx, and the
    order of the two tests in [import_questions] does not matter. *)
Theorem endswith_iff_suffix (s suffix : str) :
  (endswith s suffix = true <-> exists prefix, s = prefix ++ suffix)
  /\ endswith s (lit ".txt") && endswith s (lit ".docx") = false.
Proof.
  assert (Hiff : forall t suf, endswith t suf = true <-> exists prefix, t = prefix ++ suf).
  { intros t suf. split.
    - unfold endswith. intros H. apply andb_true_iff in H. destruct H as [_ H].
      apply str_eqb_eq in H.
      set (k := (List.length t - List.length suf)%nat) in H. clearbody k. subst suf.
      exists (firstn k t). symmetry. apply firstn_skipn.
    - intros [prefix ->]. apply endswith_app. }
  split; [apply Hiff|].
  destruct (endswith s (lit ".txt")) eqn:Htxt; [|reflexivity].
  destruct (endswith s (lit ".docx")) eqn:Hdocx; [|reflexivity].
  apply Hiff in Htxt. apply Hiff in Hdocx.
  destruct Htxt as [p1 H1]. destruct Hdocx as [p2 H2].
  rewrite H1 in H2. apply (f_equal (@rev N)) in H2.
  rewrite !rev_app_distr in H2. discriminate H2.
Qed.

Lemma lstrip_nil_iff (s : str) : lstrip s = [] <-> forallb isspace s = true.
Proof.
  induction s as [|c s IH]; [easy|].
  cbn [lstrip forallb]. destruct (isspace c); cbn [andb]; [exact IH | easy].
Qed.

Lemma strip_nil_iff (s : str) : strip s = [] <-> forallb isspace s = true.
Proof.
  rewrite <- lstrip_nil_iff. unfold strip, rstrip. split.
  - intros H. apply (f_equal (@rev N)) in H. rewrite rev_involutive in H.
    cbn [rev] in H. apply lstrip_nil_iff in H. rewrite forallb_rev in H.
    destruct (lstrip s) as [|c r] eqn:Hl; [reflexivity|].
    cbn [forallb] in H. now rewrite (lstrip_head s c r Hl) in H.
  - intros ->. reflexivity.
Qed.

Lemma lstrip_fixed (t : str) :
  (forall c r, t = c :: r -> isspace c = false) -> lstrip t = t.
Proof.
  destruct t as [|c r]; [reflexivity|].
  intros H. cbn [lstrip]. now rewrite (H c r eq_refl).
Qed.

Lemma strip_fixed (t : str) : no_outer_space t -> strip t = t.
Proof.
  intros [Hhead Hlast]. unfold strip, rstrip.
  rewrite (lstrip_fixed t Hhead).
  rewrite lstrip_fixed; [apply rev_involutive|].
  intros c r H. apply (Hlast (rev r) c).
  apply (f_equal (@rev N)) in H. now rewrite rev_involutive in H.
Qed.

(** [strip] removes everything exactly when the string is all whitespace,
    so the lines and paragraphs an import drops are the ones made of
    whitespace only (the empty one included); it changes nothing exactly
    when there is no whitespace at either end, and stripping twice is
    stripping once. *)
Theorem strip_blank_and_fixed (s : str) :
  (truthy (strip s) = false <-> forallb isspace s = true)
  /\ (strip s = s <-> no_outer_space s)
  /\ strip (strip s) = strip s.
Proof.
  split; [|split].
  - rewrite <- strip_nil_iff. destruct (strip s); easy.
  - split; [|apply strip_fixed].
    intros H. rewrite <- H. apply strip_no_outer_space.
  - apply strip_fixed, strip_no_outer_space.
Qed.

Lemma split_nonempty (sep : N) (s : str) : split sep s <> [].
Proof.
  destruct s as [|c r]; cbn [split]; [discriminate|].
  destruct (c =? sep)%N; [discriminate|]. now destruct (split sep r).
Qed.

Lemma join_cons (sep : N) (piece : str) (rest : list str) :
  rest <> [] -> join sep (piece :: rest) = piece ++ sep :: join sep rest.
Proof. destruct rest; [congruence | reflexivity]. Qed.

Lemma split_join (sep : N) (s : str) : join sep (split sep s) = s.
Proof.
  induction s as [|c r IH]; [reflexivity|].
  cbn [split]. destruct (N.eqb_spec c sep) as [->|Hne].
  - rewrite join_cons by apply split_nonempty. cbn [List.app]. now rewrite IH.
  - pose proof (split_nonempty sep r) as Hnil.
    destruct (split sep r) as [|piece pieces]; [congruence|].
    destruct pieces as [|piece' pieces].
    + cbn [join] in *. now rewrite IH.
    + rewrite join_cons in * by discriminate. cbn [List.app]. now rewrite IH.
Qed.

Lemma split_length (sep : N) (s : str) :
  List.length (split sep s) = S (count_occ N.eq_dec s sep).
Proof.
  induction s as [|c r IH]; [reflexivity|].
  cbn [split count_occ]. destruct (N.eqb_spec c sep) as [->|Hne].
  - destruct (N.eq_dec sep sep); [|congruence]. cbn [List.length]. now rewrite IH.
  - destruct (N.eq_dec c sep); [congruence|].
    pose proof (split_nonempty sep r) as Hnil.
    destruct (split sep r) as [|piece pieces]; [congruence|]. exact IH.
Qed.

Lemma split_no_sep (sep : N) (s : str) :
  Forall (fun piece => ~ In sep piece) (split sep s).
Proof.
  induction s as [|c r IH]; cbn [split].
  - constructor; [easy | constructor].
  - destruct (N.eqb_spec c sep) as [->|Hne].
    + constructor; [easy | exact IH].
    + destruct (split sep r) as [|piece pieces]; [repeat constructor; intros [H|[]]; congruence|].
      inversion IH as [|? ? Hp Hps]; subst. constructor; [|exact Hps].
      intros [H|H]; [congruence | exact (Hp H)].
Qed.

Lemma join_split (sep : N) (pieces : list str) :
  pieces <> [] -> Forall (fun piece => ~ In sep piece) pieces ->
  split sep (join sep pieces) = pieces.
Proof.
  induction pieces as [|piece rest IH]; [congruence|]. intros _ Hall.
  inversion Hall as [|? ? Hp Hrest]; subst.
  destruct rest as [|piece' rest].
  - cbn [join]. clear IH Hall Hrest.
    induction piece as [|c piece IHp]; [reflexivity|].
    cbn [split]. destruct (N.eqb_spec c sep) as [->|Hne]; [now elim Hp; left|].
    rewrite IHp; [reflexivity|]. intros H. apply Hp. now right.
  - rewrite join_cons by discriminate.
    specialize (IH ltac:(discriminate) Hrest). clear Hall Hrest.
    induction piece as [|c piece IHp].
    + cbn [List.app split]. rewrite N.eqb_refl. now rewrite IH.
    + cbn [List.app split]. destruct (N.eqb_spec c sep) as [->|Hne]; [now elim Hp; left|].
      rewrite IHp; [reflexivity|]. intros H. apply Hp. now right.
Qed.

(** [split] and [join] are inverse to each other: joining the pieces of a
    string with the separator gives the string back, and splitting the join
    of separator-free pieces gives the pieces back. A string with [n]
    separators has [n + 1] pieces, none of which holds the separator. *)
Theorem split_join_round_trip (sep : N) (s : str) :
  join sep (split sep s) = s
  /\ List.length (split sep s) = S (count_occ N.eq_dec s sep)
  /\ Forall (fun piece => ~ In sep piece) (split sep s)
  /\ (forall pieces : list str,
        pieces <> [] -> Forall (fun piece => ~ In sep piece) pieces ->
        split sep (join sep pieces) = pieces).
Proof.
  split; [apply split_join|]. split; [apply split_length|].
  split; [apply split_no_sep|]. intros pieces. apply join_split.
Qed.

(** The round trip at the pieces "a", "" and "b c" around line feeds. *)
Lemma split_join_round_trip_demo :
  split LF (join LF [lit "a"; []; lit "b c"]) = [lit "a"; []; lit "b c"].
Proof.
  apply (proj2 (proj2 (proj2 (split_join_round_trip LF [])))).
  - discriminate.
  - repeat constructor; cbn; intros H; repeat (destruct H as [H|H]; [discriminate H|]); exact H.
Defined.

(** ** UTF-8 decoding *)

Lemma scalar_value_intro (c : N) :
  (c <= 0x10FFFF)%N -> (c < 0xD800 \/ 0xDFFF < c)%N -> scalar_value c = true.
Proof.
  intros Hmax Hsur. unfold scalar_value.
  apply andb_true_iff. split; [now apply N.leb_le|].
  apply negb_true_iff, andb_false_iff.
  destruct Hsur; [left; apply N.leb_gt | right; apply N.leb_gt]; assumption.
Qed.

Lemma scalar_value_elim (c : N) :
  scalar_value c = true -> (c <= 0x10FFFF)%N /\ (c < 0xD800 \/ 0xDFFF < c)%N.
Proof.
  unfold scalar_value. intros H. apply andb_true_iff in H. destruct H as [Hmax Hsur].
  apply N.leb_le in Hmax. apply negb_true_iff, andb_false_iff in Hsur.
  split; [exact Hmax|]. destruct Hsur as [H|H]; apply N.leb_gt in H; [now left | now right].
Qed.

Lemma decode_utf8_scalar_bounded (n : nat) (bs : list byte) (s : str) :
  (List.length bs <= n)%nat ->
  decode_utf8 bs = Some s ->
  Forall (fun c => scalar_value c = true) s /\ (List.length s <= List.length bs)%nat.
Proof.
  revert bs s. induction n as [|n IH]; intros bs s Hlen Hdec.
  - destruct bs; [|cbn in Hlen; lia]. inversion Hdec. split; [constructor | cbn; lia].
  - destruct bs as [|b0 r0]; [inversion Hdec; split; [constructor | cbn; lia]|].
    cbn [decode_utf8] in Hdec. cbv zeta in Hdec.
    unfold in_range, is_cont in Hdec.
    pose proof (Byte.to_N_bounded b0).
    repeat decode_case Hdec;
      inversion Hdec; subst; clear Hdec;
      match goal with
      | Hr : decode_utf8 ?r = Some ?l |- _ =>
          cbn [List.length] in Hlen;
          destruct (IH r l ltac:(cbn [List.length]; lia) Hr) as [Hall Hle]
      end;
      (split; [constructor; [|exact Hall] | cbn [List.length] in *; lia]);
      repeat match goal with
             | b : byte |- _ =>
                 lazymatch goal with
                 | _ : (Byte.to_N b <= 255)%N |- _ => fail
                 | _ => pose proof (Byte.to_N_bounded b)
                 end
             end;
      unfold low6; apply scalar_value_intro; lia.
Qed.

Lemma decode_utf8_ascii (bs : list byte) :
  forallb (fun b => (Byte.to_N b <? 0x80)%N) bs = true ->
  decode_utf8 bs = Some (map Byte.to_N bs).
Proof.
  induction bs as [|b bs IH]; [reflexivity|].
  cbn [forallb]. intros H. apply andb_true_iff in H. destruct H as [Hb Hbs].
  cbn [decode_utf8]. cbv zeta. rewrite Hb, (IH Hbs). reflexivity.
Qed.

Lemma to_N_byte_of_N (n : N) : (n <= 255)%N -> Byte.to_N (byte_of_N n) = n.
Proof.
  intros Hn. unfold byte_of_N. pose proof (Byte.to_of_N_option_map n) as H.
  apply N.leb_le in Hn. rewrite Hn in H.
  destruct (Byte.of_N n); cbn in H; [now inversion H | discriminate H].
Qed.

Lemma byte_of_N_to_N (n : N) (b : byte) : n = Byte.to_N b -> byte_of_N n = b.
Proof. intros ->. unfold byte_of_N. now rewrite Byte.of_to_N. Qed.

Lemma decode_encode_char (c : N) (rest : list byte) :
  scalar_value c = true ->
  decode_utf8 (encode_char c ++ rest) = option_map (cons c) (decode_utf8 rest).
Proof.
  intros Hs. apply scalar_value_elim in Hs. destruct Hs as [Hmax Hsur].
  unfold encode_char.
  destruct (N.ltb_spec c 0x80);
    [|destruct (N.ltb_spec c 0x800); [|destruct (N.ltb_spec c 0x10000)]];
    cbn [List.app decode_utf8]; cbv zeta; unfold in_range, is_cont, low6;
    rewrite !to_N_byte_of_N by lia_div;
    repeat encode_case;
    f_equal; f_equal; lia_div.
Qed.

Lemma decode_encode_utf8 (s : str) :
  Forall (fun c => scalar_value c = true) s -> decode_utf8 (encode_utf8 s) = Some s.
Proof.
  induction 1 as [|c s Hc Hs IH]; [reflexivity|].
  unfold encode_utf8 in *. cbn [flat_map].
  now rewrite (decode_encode_char c _ Hc), IH.
Qed.

Lemma encode_decode_bounded (n : nat) (bs : list byte) (s : str) :
  (List.length bs <= n)%nat -> decode_utf8 bs = Some s -> encode_utf8 s = bs.
Proof.
  revert bs s. induction n as [|n IH]; intros bs s Hlen Hdec.
  - destruct bs; [|cbn in Hlen; lia]. now inversion Hdec.
  - destruct bs as [|b0 r0]; [now inversion Hdec|].
    cbn [decode_utf8] in Hdec. cbv zeta in Hdec.
    unfold in_range, is_cont in Hdec.
    pose proof (Byte.to_N_bounded b0).
    repeat decode_case Hdec;
      inversion Hdec; subst; clear Hdec;
      match goal with
      | Hr : decode_utf8 ?r = Some ?l |- _ =>
          cbn [List.length] in Hlen;
          pose proof (IH r l ltac:(cbn [List.length]; lia) Hr) as Henc
      end;
      repeat match goal with
             | b : byte |- _ =>
                 lazymatch goal with
                 | _ : (Byte.to_N b <= 255)%N |- _ => fail
                 | _ => pose proof (Byte.to_N_bounded b)
                 end
             end;
      unfold encode_utf8 in *; cbn [flat_map]; rewrite Henc;
      unfold encode_char, low6;
      repeat encode_case;
      cbn [List.app]; repeat f_equal; apply byte_of_N_to_N; lia_div.
Qed.

Lemma encode_char_length (c : N) : (List.length (encode_char c) <= 4)%nat.
Proof.
  unfold encode_char.
  destruct (c <? 0x80)%N; [cbn; lia|].
  destruct (c <? 0x800)%N; [cbn; lia|].
  destruct (c <? 0x10000)%N; cbn; lia.
Qed.

Lemma encode_utf8_length (s : str) :
  (List.length (encode_utf8 s) <= 4 * List.length s)%nat.
Proof.
  induction s as [|c s IH]; [cbn; lia|].
  unfold encode_utf8 in *. cbn [flat_map List.length]. rewrite length_app.
  pose proof (encode_char_length c). lia.
Qed.

Lemma ascii_of_encode_char (c : N) :
  scalar_value c = true ->
  map Byte.to_N (filter (fun b => (Byte.to_N b <? 0x80)%N) (encode_char c))
  = if (c <? 0x80)%N then [c] else [].
Proof.
  intros Hs. apply scalar_value_elim in Hs. destruct Hs as [Hmax Hsur].
  unfold encode_char.
  destruct (c <? 0x80)%N eqn:H1; [apply N.ltb_lt in H1 | apply N.ltb_ge in H1];
    [|destruct (c <? 0x800)%N eqn:H2; [apply N.ltb_lt in H2 | apply N.ltb_ge in H2];
      [|destruct (c <? 0x10000)%N eqn:H3;
        [apply N.ltb_lt in H3 | apply N.ltb_ge in H3]]];
    cbn [filter]; rewrite !to_N_byte_of_N by lia_div;
    repeat encode_case; cbn [map]; rewrite ?to_N_byte_of_N by lia_div; reflexivity.
Qed.

Lemma ascii_of_encode_utf8 (s : str) :
  Forall (fun c => scalar_value c = true) s ->
  map Byte.to_N (filter (fun b => (Byte.to_N b <? 0x80)%N) (encode_utf8 s))
  = filter (fun c => (c <? 0x80)%N) s.
Proof.
  induction 1 as [|c s Hc Hs IH]; [reflexivity|].
  unfold encode_utf8 in *. cbn [flat_map filter].
  rewrite filter_app, map_app, IH, (ascii_of_encode_char c Hc).
  now destruct (c <? 0x80)%N.
Qed.

(** When [decode("utf-8")] succeeds, every character took one to four
    bytes: the text is no longer than the bytes and the bytes are at most
    four times as many. The bytes below 0x80 of the input, in order, are
    the characters below U+0080 of the text, each byte giving the code
    point of its own value: an ASCII byte is never part of a longer
    sequence, and no longer sequence yields an ASCII character. *)
Theorem decode_utf8_ascii_and_length (bs : list byte) (s : str) :
  decode_utf8 bs = Some s ->
  (List.length s <= List.length bs <= 4 * List.length s)%nat
  /\ filter (fun c => (c <? 0x80)%N) s
     = map Byte.to_N (filter (fun b => (Byte.to_N b <? 0x80)%N) bs).
Proof.
  intros Hdec.
  destruct (decode_utf8_scalar_bounded (List.length bs) bs s (le_n _) Hdec)
    as [Hscalar Hle].
  pose proof (encode_decode_bounded _ bs s (le_n _) Hdec) as Henc.
  pose proof (encode_utf8_length s) as Hlen. rewrite Henc in Hlen.
  split; [lia|].
  rewrite <- Henc. symmetry. now apply ascii_of_encode_utf8.
Qed.

(** The bytes 61 e2 82 ac 62 f0 9f 98 80 63 decode to "a", U+20AC, "b",
    U+1F600 and "c"; the ASCII bytes 61, 62 and 63 are the characters "a",
    "b" and "c" of the text. *)
Lemma decode_utf8_ascii_and_length_demo :
  (5 <= 10 <= 4 * 5)%nat
  /\ [0x61; 0x62; 0x63]%N = map Byte.to_N [x61; x62; x63].
Proof.
  exact (decode_utf8_ascii_and_length
           [x61; xe2; x82; xac; x62; xf0; x9f; x98; x80; x63]
           [0x61; 0x20AC; 0x62; 0x1F600; 0x63]%N eq_refl).
Defined.

(** [decode("utf-8")] succeeds with [s] exactly on the UTF-8 encoding of
    [s], for [s] made of Unicode scalar values: the decoder accepts every
    encoded text, gives the text back, and accepts no other byte sequence
    (no overlong form, no stray continuation byte, no truncated sequence). *)
Theorem decode_utf8_iff_encoding (bs : list byte) (s : str) :
  decode_utf8 bs = Some s
  <-> Forall (fun c => scalar_value c = true) s /\ encode_utf8 s = bs.
Proof.
  split.
  - intros Hdec. split.
    + exact (proj1 (decode_utf8_scalar_bounded _ bs s (le_n _) Hdec)).
    + exact (encode_decode_bounded _ bs s (le_n _) Hdec).
  - intros [Hs <-]. now apply decode_encode_utf8.
Qed.

(** ** More on the import handler *)

Lemma with_questions_same (w : World) : with_questions w (questions w ++ []) = w.
Proof. unfold with_questions. rewrite app_nil_r. now destruct w. Qed.

(** When an import returns, it has added exactly one record per question
    string it read from the upload, in order, after the existing ones and to
    the Question table only, and the number in its message is the number of
    records it added. *)
Theorem import_questions_effect {E : Externals} (file : UploadFile.t)
    (w w' : World) (payload : Payload) :
  import_questions file w = (Return payload, w') ->
  exists new : list Question.t,
    w' = mkWorld (users w) (questions w ++ new) (answers w) (broker w)
    /\ payload = [("message"%string,
                   lit "Imported " ++ str_of_nat (List.length new)
                                   ++ lit " questions")]
    /\ fst (parse_upload file w) = Return (map Question.question_text new).
Proof.
  rewrite import_questions_run.
  destruct (fst (parse_upload file w)) as [texts|e]; [|discriminate].
  intros H. inversion H; subst; clear H.
  exists (created_questions (questions w) texts 1).
  rewrite created_questions_length, created_questions_texts. now repeat split.
Qed.

(** [import_questions_effect] at a text file with the lines "a" and "b",
    imported into a store that holds one question already. *)
Lemma import_questions_effect_demo :
  exists new : list Question.t,
    mkWorld [] [Question.mk 5 (lit "old") 1; Question.mk 6 (lit "a") 1;
                Question.mk 7 (lit "b") 1] [] []
    = mkWorld [] ([Question.mk 5 (lit "old") 1] ++ new) [] []
    /\ [("message"%string, lit "Imported 2 questions")]
       = [("message"%string,
           lit "Imported " ++ str_of_nat (List.length new) ++ lit " questions")]
    /\ fst (parse_upload (E := demo_externals)
              (UploadFile.mk (lit "q.txt") [x61; x0a; x62])
              (with_questions empty_world [Question.mk 5 (lit "old") 1]))
       = Return (map Question.question_text new).
Proof.
  exact (import_questions_effect (E := demo_externals)
           (UploadFile.mk (lit "q.txt") [x61; x0a; x62])
           (with_questions empty_world [Question.mk 5 (lit "old") 1])
           (mkWorld [] [Question.mk 5 (lit "old") 1; Question.mk 6 (lit "a") 1;
                        Question.mk 7 (lit "b") 1] [] [])
           [("message"%string, lit "Imported 2 questions")] eq_refl).
Defined.

(** Reading the upload, which [import_questions] does before it creates any
    record, fails in exactly three situations: a .txt upload that is not
    valid UTF-8 ([UnicodeDecodeError]), a .docx upload the document parser
    rejects (the parser's own exception), and a file name with neither
    extension (the HTTP 400 "Unsupported file format"). Whenever it fails,
    the import raises that exception with no record created, leaving the
    world as it was. *)
Theorem import_read_fails_iff {E : Externals} (file : UploadFile.t) (w : World)
    (e : Exn) :
  (fst (parse_upload file w) = Raise e
   <-> (endswith (UploadFile.filename file) (lit ".txt") = true
        /\ decode_utf8 (UploadFile.file file) = None
        /\ e = UnicodeDecodeError)
       \/ (endswith (UploadFile.filename file) (lit ".txt") = false
           /\ endswith (UploadFile.filename file) (lit ".docx") = true
           /\ Document (UploadFile.file file) = Raise e)
       \/ (endswith (UploadFile.filename file) (lit ".txt") = false
           /\ endswith (UploadFile.filename file) (lit ".docx") = false
           /\ e = UnsupportedFormat))
  /\ (fst (parse_upload file w) = Raise e ->
      import_questions file w = (Raise e, w)).
Proof.
  split; [|intros H; now rewrite import_questions_run, H].
  unfold parse_upload.
  destruct (endswith _ (lit ".txt")) eqn:Htxt.
  - unfold bind, call. destruct (decode_utf8 _) as [content|] eqn:Hdec;
      cbn [fst raise ret]; split; intros H; cases_of H.
  - destruct (endswith _ (lit ".docx")) eqn:Hdocx.
    + unfold bind, call. destruct (Document _) as [doc|e0] eqn:Hdoc;
        cbn [fst raise ret]; split; intros H; cases_of H.
    + cbn [fst raise]. split; intros H; cases_of H.
Qed.

(** [import_read_fails_iff] at a text file holding the single byte ff, which
    is not UTF-8. *)
Lemma import_read_fails_iff_demo :
  import_questions (E := demo_externals) (UploadFile.mk (lit "q.txt") [xff])
                   empty_world
  = (Raise UnicodeDecodeError, empty_world).
Proof.
  exact (proj2 (import_read_fails_iff (E := demo_externals)
                  (UploadFile.mk (lit "q.txt") [xff]) empty_world
                  UnicodeDecodeError)
               eq_refl).
Defined.

Lemma split_forallb (p : N -> bool) (sep : N) (s : str) :
  forallb p s = true -> Forall (fun piece => forallb p piece = true) (split sep s).
Proof.
  induction s as [|c r IH]; cbn [split forallb].
  - repeat constructor.
  - intros H. apply andb_true_iff in H. destruct H as [Hc Hr]. specialize (IH Hr).
    destruct (c =? sep)%N; [constructor; [reflexivity | exact IH]|].
    destruct (split sep r) as [|piece pieces]; [repeat constructor; cbn; now rewrite Hc|].
    inversion IH as [|? ? Hp Hps]; subst. constructor; [|exact Hps].
    cbn [forallb]. now rewrite Hc, Hp.
Qed.

(** A .txt upload that holds whitespace only (spaces, tabs, line breaks, or
    nothing at all) is accepted and imports nothing: the answer is "Imported
    0 questions" and the world is unchanged. *)
Theorem import_blank_txt {E : Externals} (stem : str) (bytes : list byte)
    (content : str) (w : World) :
  decode_utf8 bytes = Some content ->
  forallb isspace content = true ->
  import_questions (UploadFile.mk (stem ++ lit ".txt") bytes) w
  = (Return [("message"%string, lit "Imported 0 questions")], w).
Proof.
  intros Hdec Hblank. rewrite import_questions_run.
  rewrite (parse_upload_txt _ content); [| apply endswith_app | exact Hdec].
  cbn [fst].
  assert (Hnone : filter (fun line => truthy (strip line)) (split LF content) = []).
  { pose proof (split_forallb isspace LF content Hblank) as Hall.
    induction Hall as [|piece pieces Hp _ IH]; [reflexivity|].
    cbn [filter]. apply strip_nil_iff in Hp. now rewrite Hp. }
  rewrite Hnone. cbn [map created_questions List.length].
  now rewrite with_questions_same.
Qed.

(** [import_blank_txt] at a file of a space, a line feed, a tab and a line
    feed. *)
Lemma import_blank_txt_demo :
  import_questions (E := demo_externals)
    (UploadFile.mk (lit "empty" ++ lit ".txt") [x20; x0a; x09; x0a]) empty_world
  = (Return [("message"%string, lit "Imported 0 questions")], empty_world).
Proof.
  exact (import_blank_txt (E := demo_externals) (lit "empty") [x20; x0a; x09; x0a]
           [32; 10; 9; 10]%N empty_world eq_refl eq_refl).
Defined.

Lemma padded_In (line t : str) (c : N) : padded line t -> In c t -> In c line.
Proof.
  intros [l [r [-> _]]] Hin. apply in_or_app. right. apply in_or_app. now left.
Qed.

(** Every question imported from a .txt upload is a single line: its text
    holds no line feed. There are at most as many of them as the file has
    lines, that is one more than it has line feeds. *)
Theorem import_txt_single_lines {E : Externals} (file : UploadFile.t)
    (content : str) (w : World) :
  endswith (UploadFile.filename file) (lit ".txt") = true ->
  decode_utf8 (UploadFile.file file) = Some content ->
  Forall (fun t => ~ In LF t) (imported_texts file w)
  /\ (List.length (imported_texts file w) <= S (count_occ N.eq_dec content LF))%nat.
Proof.
  intros Hext Hdec.
  rewrite (imported_texts_run file _ w (parse_upload_txt file content w Hext Hdec)).
  split.
  - apply Forall_forall. intros t Ht.
    apply in_map_iff in Ht. destruct Ht as [line [<- Hline]].
    apply filter_In in Hline. destruct Hline as [Hin _].
    intros Hlf. apply (padded_In line _ LF (strip_padded line)) in Hlf.
    pose proof (split_no_sep LF content) as Hall.
    rewrite Forall_forall in Hall. exact (Hall line Hin Hlf).
  - rewrite length_map, <- split_length. apply filter_length_le.
Qed.

(** [import_txt_single_lines] at a file with the lines " a b " and "c". *)
Lemma import_txt_single_lines_demo :
  Forall (fun t => ~ In LF t)
    (imported_texts (E := demo_externals)
       (UploadFile.mk (lit "q.txt") [x20; x61; x20; x62; x20; x0a; x63]) empty_world)
  /\ (List.length
        (imported_texts (E := demo_externals)
           (UploadFile.mk (lit "q.txt") [x20; x61; x20; x62; x20; x0a; x63])
           empty_world)
      <= S (count_occ N.eq_dec [32; 97; 32; 98; 32; 10; 99]%N LF))%nat.
Proof.
  exact (import_txt_single_lines (E := demo_externals)
           (UploadFile.mk (lit "q.txt") [x20; x61; x20; x62; x20; x0a; x63])
           [32; 97; 32; 98; 32; 10; 99]%N empty_world eq_refl eq_refl).
Defined.

(** A .txt upload that is the UTF-8 encoding of a text is never refused:
    the import succeeds and stores the stripped non-blank lines of that
    text, in order. *)
Theorem import_encoded_text {E : Externals} (stem content : str) (w : World) :
  Forall (fun c => scalar_value c = true) content ->
  exists payload w',
    import_questions (UploadFile.mk (stem ++ lit ".txt") (encode_utf8 content)) w
      = (Return payload, w')
    /\ imported_texts (UploadFile.mk (stem ++ lit ".txt") (encode_utf8 content)) w
       = map strip (filter (fun line => truthy (strip line)) (split LF content)).
Proof.
  intros Hs.
  assert (Hparse := parse_upload_txt
                      (UploadFile.mk (stem ++ lit ".txt") (encode_utf8 content))
                      content w (endswith_app _ _) (decode_encode_utf8 content Hs)).
  rewrite (imported_texts_run _ _ w Hparse).
  rewrite import_questions_run, Hparse. cbn [fst]. now eexists _, _.
Qed.

(** [import_encoded_text] at the text of the two lines "caf", U+00E9 and
    U+20AC, "5". *)
Lemma import_encoded_text_demo :
  exists payload w',
    import_questions (E := demo_externals)
      (UploadFile.mk (lit "q" ++ lit ".txt")
                     (encode_utf8 [99; 97; 102; 0xE9; 10; 0x20AC; 53]%N)) empty_world
      = (Return payload, w')
    /\ imported_texts (E := demo_externals)
         (UploadFile.mk (lit "q" ++ lit ".txt")
                        (encode_utf8 [99; 97; 102; 0xE9; 10; 0x20AC; 53]%N)) empty_world
       = map strip (filter (fun line => truthy (strip line))
                           (split LF [99; 97; 102; 0xE9; 10; 0x20AC; 53]%N)).
Proof.
  apply (import_encoded_text (E := demo_externals) (lit "q")
           [99; 97; 102; 0xE9; 10; 0x20AC; 53]%N empty_world).
  repeat constructor.
Defined.

(** ** More on answer generation *)

Lemma generate_answer_run {E : Externals} (question_id : Z) (w : World) :
  generate_answer question_id w =
  match find (fun q => Question.id q =? question_id) (questions w) with
  | None => (Raise NotFound, w)
  | Some question =>
      match ChatCompletion_create (lit "gpt-3.5-turbo")
              [openai.mkMessage (lit "user") (Question.question_text question)] with
      | Raise e => (Raise e, w)
      | Return completion =>
          match openai.choices completion with
          | [] => (Raise IndexError, w)
          | choice0 :: _ =>
              (Return [("answer"%string, openai.content (openai.message choice0))],
               with_answers w
                 (answers w ++ [Answer.mk (next_id (map Answer.id (answers w)))
                                          question_id
                                          (openai.content (openai.message choice0))]))
          end
      end
  end.
Proof.
  unfold generate_answer, bind, query_question_first.
  destruct (find _ (questions w)) as [question|]; [|reflexivity].
  unfold call. destruct (ChatCompletion_create _ _) as [completion|e]; [|reflexivity].
  cbn [ret]. now destruct (openai.choices completion).
Qed.

(** [generate_answer] raises before any Answer is created in three
    situations: the query finds no Question with the id (HTTP 404), the
    chat completion raises (its exception is passed on unchanged), or the
    completion holds no choice ([IndexError]). In each of them the world is
    left as it was. *)
Theorem generate_answer_failures {E : Externals} (question_id : Z) (w : World)
    (e : Exn) :
  (find (fun q => Question.id q =? question_id) (questions w) = None
   /\ e = NotFound)
  \/ (exists question : Question.t,
        find (fun q => Question.id q =? question_id) (questions w) = Some question
        /\ (ChatCompletion_create (lit "gpt-3.5-turbo")
              [openai.mkMessage (lit "user") (Question.question_text question)]
            = Raise e
            \/ exists completion : openai.ChatCompletion,
                 ChatCompletion_create (lit "gpt-3.5-turbo")
                   [openai.mkMessage (lit "user") (Question.question_text question)]
                 = Return completion
                 /\ openai.choices completion = []
                 /\ e = IndexError)) ->
  generate_answer question_id w = (Raise e, w)
  /\ answers (snd (generate_answer question_id w)) = answers w.
Proof.
  intros Hcase.
  assert (H : generate_answer question_id w = (Raise e, w)).
  { rewrite generate_answer_run.
    destruct Hcase as [[Hnone ->]|[question [Hsome [Hraise|[completion [Hret [Hnil ->]]]]]]].
    - now rewrite Hnone.
    - now rewrite Hsome, Hraise.
    - now rewrite Hsome, Hret, Hnil. }
  now rewrite H.
Qed.

(** [generate_answer_failures] for question 1 while the chat completion
    times out. *)
Lemma generate_answer_failures_demo :
  generate_answer (E := offline_externals) 1
    (with_questions empty_world [Question.mk 1 (lit "6 * 7?") 1])
  = (Raise (UpstreamError (lit "timeout")),
     with_questions empty_world [Question.mk 1 (lit "6 * 7?") 1])
  /\ answers (snd (generate_answer (E := offline_externals) 1
                     (with_questions empty_world [Question.mk 1 (lit "6 * 7?") 1])))
     = [].
Proof.
  apply (generate_answer_failures (E := offline_externals) 1
           (with_questions empty_world [Question.mk 1 (lit "6 * 7?") 1])
           (UpstreamError (lit "timeout"))).
  right. exists (Question.mk 1 (lit "6 * 7?") 1). split; [reflexivity|]. now left.
Defined.

Lemma generate_answer_reply {E : Externals} (question_id : Z)
    (question : Question.t) (reply : str) (w : World) :
  find (fun q => Question.id q =? question_id) (questions w) = Some question ->
  first_reply question = Some reply ->
  generate_answer question_id w
  = (Return [("answer"%string, reply)],
     with_answers w
       (answers w ++ [Answer.mk (next_id (map Answer.id (answers w)))
                                question_id reply])).
Proof.
  intros Hfind Hreply. rewrite generate_answer_run, Hfind.
  unfold first_reply in Hreply.
  destruct (ChatCompletion_create _ _) as [completion|e]; [|discriminate Hreply].
  destruct (openai.choices completion) as [|choice0 others]; [discriminate Hreply|].
  now inversion Hreply.
Qed.

(** Answers accumulate: successive [generate_answer] calls for the same
    question, each of which gets a reply from the chat completion, store
    one Answer record per call, in the order of the calls and each with the
    reply of its own call, whether or not the replies differ; an earlier
    answer neither blocks a later call nor is replaced by it. *)
Theorem generate_answer_accumulates (environments : list Externals)
    (question_id : Z) (question : Question.t) (w : World) :
  find (fun q => Question.id q =? question_id) (questions w) = Some question ->
  Forall (fun E => first_reply (E := E) question <> None) environments ->
  exists (w' : World) (new : list Answer.t),
    answer_with environments question_id w = (Return tt, w')
    /\ answers w' = answers w ++ new
    /\ map (fun a => Some (Answer.answer_text a)) new
       = map (fun E => first_reply (E := E) question) environments
    /\ Forall (fun a => Answer.question_id a = question_id) new
    /\ questions w' = questions w.
Proof.
  intros Hfind Hall. revert w Hfind.
  induction Hall as [|E rest Hreply _ IH]; intros w Hfind.
  - exists w, []. cbn [answer_with map]. rewrite app_nil_r. now repeat split.
  - destruct (first_reply (E := E) question) as [reply|] eqn:Hr; [|congruence].
    destruct (IH (with_answers w
                    (answers w ++ [Answer.mk (next_id (map Answer.id (answers w)))
                                             question_id reply])) Hfind)
      as [w' [new [Hrun [Hans [Htexts [Hids Hqs]]]]]].
    exists w', (Answer.mk (next_id (map Answer.id (answers w))) question_id reply :: new).
    cbn [answer_with]. unfold bind at 1.
    rewrite (generate_answer_reply question_id question reply w Hfind Hr), Hrun.
    split; [reflexivity|]. rewrite Hans. cbn [with_answers answers].
    rewrite <- app_assoc. split; [reflexivity|].
    cbn [map Answer.answer_text]. rewrite Htexts, Hr.
    split; [reflexivity|]. split; [now constructor | exact Hqs].
Qed.

(** [generate_answer_accumulates] for three calls on question 1, answered
    " 42 ", then "forty-two", then " 42 " again. *)
Lemma generate_answer_accumulates_demo :
  exists (w' : World) (new : list Answer.t),
    answer_with [demo_externals; wordy_externals; demo_externals] 1
      (with_questions empty_world [Question.mk 1 (lit "6 * 7?") 1])
    = (Return tt, w')
    /\ answers w' = [] ++ new
    /\ map (fun a => Some (Answer.answer_text a)) new
       = [Some (lit " 42 "); Some (lit "forty-two"); Some (lit " 42 ")]
    /\ Forall (fun a => Answer.question_id a = 1) new
    /\ questions w' = [Question.mk 1 (lit "6 * 7?") 1].
Proof.
  apply (generate_answer_accumulates
           [demo_externals; wordy_externals; demo_externals] 1
           (Question.mk 1 (lit "6 * 7?") 1)
           (with_questions empty_world [Question.mk 1 (lit "6 * 7?") 1]) eq_refl).
  repeat constructor; discriminate.
Defined.

(** ** The store under any sequence of requests *)

Lemma register_run {E : Externals} (user : UserCreate.t) (w : World) :
  register user w =
  match find (fun u => str_eqb (User.email u) (UserCreate.email user)) (users w) with
  | Some _ => (Raise AlreadyExists, w)
  | None =>
      (Return [("message"%string, lit "User created successfully")],
       with_users w
         (users w ++ [User.mk (next_id (map User.id (users w)))
                              (UserCreate.email user)
                              (get_password_hash (UserCreate.password user))]))
  end.
Proof.
  unfold register, bind at 1, get_user_by_email. now destruct (find _ (users w)).
Qed.

Lemma login_world {E : Externals} (form_data : OAuth2PasswordRequestForm.t) (w : World) :
  snd (login form_data w) = w.
Proof.
  unfold login, bind, get_user_by_email.
  destruct (find _ (users w)) as [db_user|]; [|reflexivity].
  now destruct (verify_password _ _).
Qed.

Lemma ocr_world {E : Externals} (image : UploadFile.t) (w : World) :
  snd (ocr image w) = w.
Proof.
  unfold ocr, bind, call. destruct (Image_open _) as [img|e]; [|reflexivity].
  cbn [ret]. now destruct (image_to_string img).
Qed.

Lemma world_same (w : World) :
  w = mkWorld (users w ++ []) (questions w ++ []) (answers w ++ []) (broker w ++ []).
Proof. rewrite !app_nil_r. now destruct w. Qed.

Lemma app_effect {E : Externals} (request : Request) (w : World) :
  exists (us : list User.t) (qs : list Question.t) (ans : list Answer.t)
         (acts : list Async.t),
    snd (app request w)
      = mkWorld (users w ++ us) (questions w ++ qs) (answers w ++ ans)
                (broker w ++ acts)
    /\ acts = actions_of request
    /\ match route request with
       | POST_register _ => (List.length us <= 1)%nat /\ qs = [] /\ ans = []
       | POST_import_questions _ => us = [] /\ ans = []
       | POST_generate_answer _ => us = [] /\ qs = [] /\ (List.length ans <= 1)%nat
       | POST_token _ | POST_ocr _ | POST_start_review _ =>
           us = [] /\ qs = [] /\ ans = []
       end.
Proof.
  unfold app, actions_of.
  destruct (route request) as [user|form_data|file|question_id|image|question_id].
  - rewrite register_run. destruct (find _ (users w)).
    + exists [], [], [], []. cbn [snd]. split; [apply world_same|]. cbn. repeat split; lia.
    + eexists [_], [], [], []. cbn [snd with_users users questions answers broker].
      rewrite !app_nil_r. repeat split. cbn; lia.
  - exists [], [], [], []. rewrite login_world. split; [apply world_same | now repeat split].
  - rewrite import_questions_run. destruct (fst (parse_upload file w)) as [texts|e].
    + exists [], (created_questions (questions w) texts 1), [], [].
      cbn [snd with_questions users questions answers broker].
      rewrite !app_nil_r. now repeat split.
    + exists [], [], [], []. split; [apply world_same | now repeat split].
  - rewrite generate_answer_run.
    destruct (find _ (questions w)) as [question|];
      [destruct (ChatCompletion_create _ _) as [completion|e];
       [destruct (openai.choices completion)|]|].
    2: { eexists [], [], [_], []. cbn [snd with_answers users questions answers broker].
         rewrite !app_nil_r. repeat split. cbn; lia. }
    all: exists [], [], [], []; cbn [snd]; split; [apply world_same|];
      repeat split; cbn; lia.
  - exists [], [], [], []. rewrite ocr_world. split; [apply world_same | now repeat split].
  - rewrite start_review_run. exists [], [], [], (review_actions question_id).
    cbn [snd with_broker users questions answers broker].
    rewrite !app_nil_r. now repeat split.
Qed.

(** Each request only appends, and only to its own table: registering adds
    at most one User, an import adds Questions, answer generation adds at
    most one Answer, a review request queues its three actions, and login
    and OCR change nothing. In particular no handler removes or rewrites a
    stored record, and none cancels a pending action. *)
Theorem app_appends_to_own_table {E : Externals} (request : Request) (w : World) :
  exists (us : list User.t) (qs : list Question.t) (ans : list Answer.t)
         (acts : list Async.t),
    snd (app request w)
      = mkWorld (users w ++ us) (questions w ++ qs) (answers w ++ ans)
                (broker w ++ acts)
    /\ acts = actions_of request
    /\ match route request with
       | POST_register _ => (List.length us <= 1)%nat /\ qs = [] /\ ans = []
       | POST_import_questions _ => us = [] /\ ans = []
       | POST_generate_answer _ => us = [] /\ qs = [] /\ (List.length ans <= 1)%nat
       | POST_token _ | POST_ocr _ | POST_start_review _ =>
           us = [] /\ qs = [] /\ ans = []
       end.
Proof.
  destruct (app_effect request w) as [us [qs [ans [acts Heffect]]]].
  exists us, qs, ans, acts. exact Heffect.
Qed.

(** Over any sequence of requests the store is append-only: each table
    after the sequence starts with the table before it. The pending actions
    are the earlier ones followed by the three actions of each start-review
    request of the sequence, in order: three times the number of such
    requests, whatever else was requested in between. *)
Theorem serve_all_append_only {E : Externals} (requests : list Request) (w : World) :
  exists (us : list User.t) (qs : list Question.t) (ans : list Answer.t),
    serve_all requests w
      = mkWorld (users w ++ us) (questions w ++ qs) (answers w ++ ans)
                (broker w ++ flat_map actions_of requests)
    /\ List.length (flat_map actions_of requests)
       = (3 * List.length (filter (fun r => match route r with
                                            | POST_start_review _ => true
                                            | _ => false
                                            end) requests))%nat.
Proof.
  revert w. induction requests as [|request rest IH]; intros w.
  - exists [], [], []. cbn [serve_all flat_map filter List.length].
    split; [apply world_same | reflexivity].
  - cbn [serve_all flat_map filter].
    destruct (app_effect request w) as [us [qs [ans [acts [Hw [Hacts _]]]]]].
    destruct (IH (snd (app request w))) as [us' [qs' [ans' [Hrest Hlen]]]].
    exists (us ++ us'), (qs ++ qs'), (ans ++ ans').
    rewrite Hrest, Hw. cbn [users questions answers broker]. subst acts.
    rewrite !app_assoc. split; [reflexivity|].
    rewrite length_app, Hlen. unfold actions_of.
    destruct (route request); cbn [List.length review_actions]; lia.
Qed.

Lemma emails_unique_app {E : Externals} (request : Request) (w : World) :
  emails_unique w -> emails_unique (snd (app request w)).
Proof.
  intros Huniq.
  destruct (app_effect request w) as [us [qs [ans [acts [Hw [_ Hframe]]]]]].
  unfold emails_unique in *. rewrite Hw. cbn [users].
  destruct (route request) as [user|form_data|file|question_id|image|question_id] eqn:Hroute.
  2-6: (destruct Hframe as [-> _]; now rewrite app_nil_r).
  clear Hframe. unfold app in Hw. rewrite Hroute, register_run in Hw.
  destruct (find _ (users w)) eqn:Hfind; cbn [snd] in Hw.
  - assert (Hus : users w = users w ++ us) by (rewrite Hw at 1; reflexivity).
    rewrite <- Hus. exact Huniq.
  - assert (Hus : users w ++ [User.mk (next_id (map User.id (users w)))
                                      (UserCreate.email user)
                                      (get_password_hash (UserCreate.password user))]
                  = users w ++ us).
    { unfold with_users in Hw. now inversion Hw. }
    rewrite <- Hus, map_app. cbn [map User.email].
    apply NoDup_app; [exact Huniq | repeat constructor; easy |].
    intros mail Hin [<-|[]].
    apply in_map_iff in Hin. destruct Hin as [u [Hmail Hu]].
    pose proof (find_none _ _ Hfind u Hu) as Hneq. cbn beta in Hneq.
    rewrite Hmail, str_eqb_refl in Hneq. discriminate Hneq.
Qed.

(** No sequence of requests makes two users share an email: when the emails
    of the store are pairwise different they still are after any requests,
    registrations of taken emails included. *)
Theorem emails_stay_unique {E : Externals} (requests : list Request) (w : World) :
  emails_unique w -> emails_unique (serve_all requests w).
Proof.
  revert w. induction requests as [|request rest IH]; intros w Huniq; [exact Huniq|].
  cbn [serve_all]. apply IH. now apply emails_unique_app.
Qed.

(** [emails_stay_unique] from the empty store, for two registrations of the
    same email with a review request in between. *)
Lemma emails_stay_unique_demo :
  emails_unique
    (serve_all (E := demo_externals)
       [mkRequest None (POST_register (UserCreate.mk (lit "ann@example.org") (lit "a")));
        mkRequest None (POST_start_review 3);
        mkRequest None (POST_register (UserCreate.mk (lit "ann@example.org") (lit "b")))]
       empty_world).
Proof.
  apply (emails_stay_unique (E := demo_externals)).
  unfold emails_unique. cbn. constructor.
Defined.

Lemma actions_for_review (q question_id : Z) :
  actions_for q (review_actions question_id)
  = if question_id =? q then review_actions question_id else [].
Proof.
  unfold actions_for, review_actions. cbn [filter Async.args fst].
  now destruct (question_id =? q).
Qed.

(** Reviews of different questions do not interfere: after any sequence of
    requests the pending actions that carry question [q] are three more,
    for every start-review request for [q] in the sequence, than before;
    requests for other questions and other operations add none. *)
Theorem serve_all_actions_for {E : Externals} (q : Z) (requests : list Request)
    (w : World) :
  List.length (actions_for q (broker (serve_all requests w)))
  = (List.length (actions_for q (broker w))
     + 3 * List.length (filter (fun r => match route r with
                                         | POST_start_review question_id =>
                                             (question_id =? q)%Z
                                         | _ => false
                                         end) requests))%nat.
Proof.
  revert w. induction requests as [|request rest IH]; intros w.
  - cbn [serve_all filter List.length]. lia.
  - cbn [serve_all filter]. rewrite IH.
    destruct (app_effect request w) as [us [qs [ans [acts [Hw [Hacts _]]]]]].
    rewrite Hw. cbn [broker]. subst acts. unfold actions_for at 1.
    rewrite filter_app, length_app.
    fold (actions_for q (broker w)). fold (actions_for q (actions_of request)).
    unfold actions_of.
    destruct (route request) as [user|form_data|file|question_id|image|question_id];
      try (cbn [actions_for filter List.length]; lia).
    rewrite actions_for_review.
    destruct (question_id =? q); cbn [List.length review_actions]; lia.
Qed.

(** ** Registration followed by login *)

(** When the password utilities agree (a password verifies against its own
    hash), registering a new email and then logging in with the same
    credentials succeeds and yields the bearer token made for that email;
    a password that does not verify against the stored hash is refused. *)
Theorem register_then_login {E : Externals} (email password : str) (w : World) :
  users_with_email email (users w) = [] ->
  verify_password password (get_password_hash password) = true ->
  exists w1 : World,
    register (UserCreate.mk email password) w
      = (Return [("message"%string, lit "User created successfully")], w1)
    /\ login (OAuth2PasswordRequestForm.mk email password) w1
       = (Return [("access_token"%string,
                   create_access_token [("sub"%string, email)]);
                  ("token_type"%string, lit "bearer")], w1)
    /\ (forall other : str,
          verify_password other (get_password_hash password) = false ->
          login (OAuth2PasswordRequestForm.mk email other) w1
          = (Raise InvalidCredentials, w1)).
Proof.
  intros Hnew Hverify.
  eexists. split; [exact (register_new (UserCreate.mk email password) w Hnew)|].
  cbn [UserCreate.email UserCreate.password].
  assert (Hfind : forall pw,
             get_user_by_email
               (OAuth2PasswordRequestForm.username
                  (OAuth2PasswordRequestForm.mk email pw))
               (with_users w
                  (users w ++ [User.mk (next_id (map User.id (users w))) email
                                       (get_password_hash password)]))
             = (Return (Some (User.mk (next_id (map User.id (users w))) email
                                      (get_password_hash password))),
                with_users w
                  (users w ++ [User.mk (next_id (map User.id (users w))) email
                                       (get_password_hash password)]))).
  { intros pw. unfold get_user_by_email, with_users.
    cbn [users OAuth2PasswordRequestForm.username].
    rewrite find_app, (filter_nil_find _ _ Hnew).
    cbn [find User.email].
    now rewrite str_eqb_refl. }
  split.
  - unfold login, bind. rewrite Hfind.
    cbn [OAuth2PasswordRequestForm.password User.hashed_password User.email].
    now rewrite Hverify.
  - intros other Hother. unfold login, bind. rewrite Hfind.
    cbn [OAuth2PasswordRequestForm.password User.hashed_password User.email].
    now rewrite Hother.
Qed.

(** [register_then_login] for ann@example.org with the password "first". *)
Lemma register_then_login_demo :
  exists w1 : World,
    register (E := demo_externals)
        (UserCreate.mk (lit "ann@example.org") (lit "first")) empty_world
      = (Return [("message"%string, lit "User created successfully")], w1)
    /\ login (E := demo_externals)
         (OAuth2PasswordRequestForm.mk (lit "ann@example.org") (lit "first")) w1
       = (Return [("access_token"%string,
                   create_access_token (Externals := demo_externals)
                     [("sub"%string, lit "ann@example.org")]);
                  ("token_type"%string, lit "bearer")], w1)
    /\ (forall other : str,
          verify_password (Externals := demo_externals) other
            (get_password_hash (Externals := demo_externals) (lit "first")) = false ->
          login (E := demo_externals)
            (OAuth2PasswordRequestForm.mk (lit "ann@example.org") other) w1
          = (Raise InvalidCredentials, w1)).
Proof.
  exact (register_then_login (E := demo_externals)
           (lit "ann@example.org") (lit "first") empty_world eq_refl eq_refl).
Defined.

(** ** OCR *)

(** [ocr] depends on the bytes of the upload only: the file name is not
    looked at (there is no extension test as in the import) and the store
    is neither read nor changed. It returns the recognised text under
    "text" as the OCR gave it, and fails only when opening the image or
    the recognition fails, with that exception. *)
Theorem ocr_reads_image_only {E : Externals} (image : UploadFile.t) (name : str)
    (w w2 : World) :
  snd (ocr image w) = w
  /\ fst (ocr (UploadFile.mk name (UploadFile.file image)) w2) = fst (ocr image w)
  /\ match fst (ocr image w) with
     | Return payload =>
         exists img text,
           Image_open (UploadFile.file image) = Return img
           /\ image_to_string img = Return text
           /\ payload = [("text"%string, text)]
     | Raise e =>
         Image_open (UploadFile.file image) = Raise e
         \/ exists img, Image_open (UploadFile.file image) = Return img
                        /\ image_to_string img = Raise e
     end.
Proof.
  split; [apply ocr_world|].
  unfold ocr, bind, call. cbn [UploadFile.file].
  destruct (Image_open _) as [img|e]; cbn [ret raise fst]; [|split; [reflexivity | now left]].
  destruct (image_to_string img) as [text|e] eqn:Htext; cbn [fst].
  - split; [reflexivity|]. now exists img, text.
  - split; [reflexivity|]. right. now exists img.
Qed.

(** ** Database sessions *)

Lemma serve_step {E : Externals} (request : Request) (s : Server) :
  fst (serve request s) = fst (app request (world s))
  /\ world (snd (serve request s)) = snd (app request (world s))
  /\ sessions_opened (snd (serve request s))
     = (sessions_opened s + if uses_db (route request) then 1 else 0)%nat
  /\ sessions_closed (snd (serve request s))
     = (sessions_closed s + if uses_db (route request) then 1 else 0)%nat.
Proof.
  unfold serve, app, get_db, no_db, SessionLocal, close.
  destruct (route request); cbn [world sessions_opened sessions_closed uses_db];
    match goal with |- context [match ?c with (_, _) => _ end] => destruct c end;
    cbn [fst snd world sessions_opened sessions_closed]; repeat split; lia.
Qed.

(** Sessions never leak: over any sequence of requests one session is
    opened and one closed for every request other than OCR, which opens
    none, also when the handler raises; so when no session was open before,
    none is open after. The session handling does not change what the
    handlers do to the store. *)
Theorem sessions_balanced {E : Externals} (requests : list Request) (s : Server) :
  sessions_opened (serve_seq requests s)
    = (sessions_opened s
       + List.length (filter (fun r => uses_db (route r)) requests))%nat
  /\ sessions_closed (serve_seq requests s)
     = (sessions_closed s
        + List.length (filter (fun r => uses_db (route r)) requests))%nat
  /\ world (serve_seq requests s) = serve_all requests (world s).
Proof.
  revert s. induction requests as [|request rest IH]; intros s.
  - cbn [serve_seq serve_all filter List.length]. repeat split; lia.
  - cbn [serve_seq serve_all filter].
    destruct (serve_step request s) as [_ [Hworld [Hopened Hclosed]]].
    destruct (IH (snd (serve request s))) as [IHo [IHc IHw]].
    rewrite IHo, IHc, IHw, Hworld, Hopened, Hclosed.
    destruct (uses_db (route request)); cbn [List.length]; repeat split; lia.
Qed.

(** ** Importing the same file again *)

(** An import does not look at what is stored: importing the same file a
    second time succeeds with the same message and stores every question
    again, after the first copies. *)
Theorem import_twice_duplicates {E : Externals} (file : UploadFile.t)
    (texts : list str) (w : World) :
  fst (parse_upload file w) = Return texts ->
  exists (payload : Payload) (w1 w2 : World),
    import_questions file w = (Return payload, w1)
    /\ import_questions file w1 = (Return payload, w2)
    /\ map Question.question_text (questions w2)
       = map Question.question_text (questions w) ++ texts ++ texts.
Proof.
  intros Hparse.
  eexists _, _, _. rewrite import_questions_run, Hparse.
  split; [reflexivity|].
  rewrite import_questions_run, (parse_upload_outcome file _ w), Hparse.
  split; [reflexivity|].
  cbn [with_questions questions].
  now rewrite !map_app, !created_questions_texts, <- app_assoc.
Qed.

(** [import_twice_duplicates] at a text file with the lines "a" and "b". *)
Lemma import_twice_duplicates_demo :
  exists (payload : Payload) (w1 w2 : World),
    import_questions (E := demo_externals)
      (UploadFile.mk (lit "q.txt") [x61; x0a; x62]) empty_world = (Return payload, w1)
    /\ import_questions (E := demo_externals)
         (UploadFile.mk (lit "q.txt") [x61; x0a; x62]) w1 = (Return payload, w2)
    /\ map Question.question_text (questions w2)
       = [] ++ [lit "a"; lit "b"] ++ [lit "a"; lit "b"].
Proof.
  exact (import_twice_duplicates (E := demo_externals)
           (UploadFile.mk (lit "q.txt") [x61; x0a; x62])
           [lit "a"; lit "b"] empty_world eq_refl).
Defined.
